(** * bn::adjacency_list: a shallow embedding and its properties

    Source: [src/bayesian/network/adjacency_list.hpp].

    The class keeps four members,

      - [stored_node_]  : [std::list<node_ptr>],
      - [stored_arc_]   : [std::list<arc_ptr>],
      - [endpoint_dic_] : [std::unordered_map<arc, pair<node, node>>],
      - [adjacency_]    : [std::unordered_map<node, list<pair<node, arc>>>],

    and its member functions are embedded below as functions on a record
    holding these four members.  Shared pointers are compared and hashed
    by address, so a pointer is modelled by its address, with [0] the
    null pointer.  Exceptions are results of a small error monad whose
    allocation steps can be made to fail by a fault plan. *)

From stdpp Require Import base numbers option list gmap fin_maps.

#[local] Set Warnings "-clear-no-such-hyp".

(** ** Pointers *)

Abbreviation node_ptr := N (only parsing).
Abbreviation arc_ptr := N (only parsing).

Definition nullptr : N := 0%N.

(** ** The container *)

Abbreviation endpoint_dictionary_type := (gmap N (N * N)) (only parsing).
Abbreviation adjacency_type := (gmap N (list (N * N))) (only parsing).

Record adjacency_list : Type := mk_adjacency_list {
  stored_node_ : list node_ptr;
  stored_arc_ : list arc_ptr;
  endpoint_dic_ : endpoint_dictionary_type;
  adjacency_ : adjacency_type
}.

(** [adjacency_list() = default]. *)
Definition empty_graph : adjacency_list :=
  mk_adjacency_list [] [] ∅ ∅.

Definition set_stored_node (f : list node_ptr → list node_ptr)
    (s : adjacency_list) : adjacency_list :=
  mk_adjacency_list (f (stored_node_ s)) (stored_arc_ s)
                    (endpoint_dic_ s) (adjacency_ s).

Definition set_stored_arc (f : list arc_ptr → list arc_ptr)
    (s : adjacency_list) : adjacency_list :=
  mk_adjacency_list (stored_node_ s) (f (stored_arc_ s))
                    (endpoint_dic_ s) (adjacency_ s).

Definition set_endpoint_dic
    (f : endpoint_dictionary_type → endpoint_dictionary_type)
    (s : adjacency_list) : adjacency_list :=
  mk_adjacency_list (stored_node_ s) (stored_arc_ s)
                    (f (endpoint_dic_ s)) (adjacency_ s).

Definition set_adjacency (f : adjacency_type → adjacency_type)
    (s : adjacency_list) : adjacency_list :=
  mk_adjacency_list (stored_node_ s) (stored_arc_ s)
                    (endpoint_dic_ s) (f (adjacency_ s)).

(** ** Iterators of [std::list]

    An iterator into a list is the index of the element it designates. *)

Section list_iterators.
Context {A : Type} `{EqDecision A}.

(** [std::find(l.cbegin(), l.cend(), x)]: the first position holding
    [x]; [None] stands for the end iterator. *)
Fixpoint find_first (x : A) (l : list A) : option nat :=
  match l with
  | [] => None
  | y :: l' => if decide (x = y) then Some 0 else S <$> find_first x l'
  end.

(** [std::find(l.crbegin(), l.crend(), x)] followed by [(++it).base()]:
    the first hit of the scan from the back, that is, the last position
    holding [x]; [None] stands for [crend()]. *)
Fixpoint find_last (x : A) (l : list A) : option nat :=
  match l with
  | [] => None
  | y :: l' =>
      match find_last x l' with
      | Some i => Some (S i)
      | None => if decide (x = y) then Some 0 else None
      end
  end.

(** [l.push_back(x)] and [l.pop_back()]. *)
Definition push_back (x : A) (l : list A) : list A := l ++ [x].
Definition pop_back (l : list A) : list A := removelast l.
End list_iterators.

(** ** Exceptions and injected resource failures *)

Inductive exn := bad_alloc | out_of_range.

(** Outcome of a call: normal return, an exception leaving the function,
    or [std::terminate] (an exception leaving a [noexcept] function). *)
Inductive result (A : Type) : Type :=
  | Return (v : A) (s : adjacency_list)
  | Raise (e : exn) (s : adjacency_list)
  | Terminate.
Arguments Return {A} v s.
Arguments Raise {A} e s.
Arguments Terminate {A}.

(** The places where the member functions obtain memory. *)
Inductive alloc_point :=
  | node_push_back      (* stored_node_.push_back(node)               *)
  | node_bucket         (* adjacency_[node], key absent                *)
  | arc_push_back       (* stored_arc_.push_back(arc)                  *)
  | endpoint_insert     (* endpoint_dic_[arc], key absent              *)
  | from_bucket         (* adjacency_[from], key absent                *)
  | bucket_push_back    (* adjacency_[from].push_back(arc_pair)        *)
  | backup_copy.        (* the three copies at the top of remove_node  *)

#[global] Instance alloc_point_eq_dec : EqDecision alloc_point.
Proof. solve_decision. Defined.

(** A fault plan tells which allocations throw [std::bad_alloc]. *)
Definition fault_plan := alloc_point → bool.
Definition no_fault : fault_plan := λ _, false.
Definition fail_at (p : alloc_point) : fault_plan :=
  λ q, bool_decide (q = p).

Definition M (A : Type) : Type := adjacency_list → result A.

#[global] Instance M_ret : MRet M := λ A v s, Return v s.
#[global] Instance M_bind : MBind M := λ A B k m s,
  match m s with
  | Return v s' => k v s'
  | Raise e s' => Raise e s'
  | Terminate => Terminate
  end.

Definition modify (f : adjacency_list → adjacency_list) : M unit :=
  λ s, Return tt (f s).

Definition allocate (φ : fault_plan) (p : alloc_point) : M unit :=
  λ s, if φ p then Raise bad_alloc s else Return tt s.

(** [try { body } catch(std::exception const&) { handler; throw; }] *)
Definition try_catch {A} (body : M A)
    (handler : adjacency_list → adjacency_list) : M A :=
  λ s, match body s with
       | Raise e s' => Raise e (handler s')
       | r => r
       end.

(** A [noexcept] function: an escaping exception ends the program. *)
Definition noexcept {A} (body : M A) : M A :=
  λ s, match body s with
       | Raise _ _ => Terminate
       | r => r
       end.

(** The state a call leaves behind, when there is one. *)
Definition final_state {A} (r : result A) : option adjacency_list :=
  match r with
  | Return _ s => Some s
  | Raise _ s => Some s
  | Terminate => None
  end.

(** ** Mutators *)

(** [m[k]] on an [unordered_map]: allocates a default value when the key
    is absent. *)
Definition subscript {V} (φ : fault_plan) (p : alloc_point)
    (get : adjacency_list → gmap N V)
    (set : (gmap N V → gmap N V) → adjacency_list → adjacency_list)
    (k : N) (dflt : V) : M unit :=
  λ s, match get s !! k with
       | Some _ => Return tt s
       | None => (allocate φ p ;; modify (set (insert k dflt))) s
       end.

Definition add_node (φ : fault_plan) (node : node_ptr) : M node_ptr :=
  allocate φ node_push_back ;;
  modify (set_stored_node (push_back node)) ;;
  try_catch
    (subscript φ node_bucket adjacency_ set_adjacency node [] ;;
     modify (set_adjacency (alter (λ _, []) node)))
    (set_stored_node pop_back) ;;
  mret node.

Definition add_arc (φ : fault_plan) (arc : arc_ptr) (from to : node_ptr)
    : M arc_ptr :=
  let node_pair := (from, to) in
  let arc_pair := (to, arc) in
  allocate φ arc_push_back ;;
  modify (set_stored_arc (push_back arc)) ;;
  try_catch
    (subscript φ endpoint_insert endpoint_dic_ set_endpoint_dic arc
               (nullptr, nullptr) ;;
     modify (set_endpoint_dic (insert arc node_pair)) ;;
     try_catch
       (subscript φ from_bucket adjacency_ set_adjacency from [] ;;
        allocate φ bucket_push_back ;;
        modify (set_adjacency (alter (push_back arc_pair) from)))
       (set_endpoint_dic (delete arc)))
    (set_stored_arc pop_back) ;;
  mret arc.

(** The private [remove_arc(arc, from, to)].  It allocates nothing and
    throws nothing, so it is a plain function returning its [bool]
    together with the state it leaves. *)
Definition remove_arc_private (arc : arc_ptr) (from to : node_ptr)
    (s : adjacency_list) : bool * adjacency_list :=
  match find_last arc (stored_arc_ s) with
  | None => (false, s)
  | Some arc_it =>
      match adjacency_ s !! from with
      | None => (false, s)
      | Some adjacency =>
          match find_first (to, arc) adjacency with
          | None => (false, s)
          | Some adjacency_it =>
              let s1 :=
                set_adjacency (insert from (delete adjacency_it adjacency)) s in
              let s2 := set_endpoint_dic (delete arc) s1 in
              let s3 := set_stored_arc (delete arc_it) s2 in
              (true, s3)
          end
      end
  end.

(** [remove_arc(arc_ptr const& arc)]. *)
Definition remove_arc (arc : arc_ptr) (s : adjacency_list)
    : bool * adjacency_list :=
  match endpoint_dic_ s !! arc with
  | None => (false, s)
  | Some (from, to) => remove_arc_private arc from to s
  end.

(** The order in which an [unordered_map] is walked is not specified: a
    walk is any enumeration of the entries, each met once. *)
Record iteration_order : Type := mk_iteration_order {
  walk : endpoint_dictionary_type → list (N * (N * N));
  walk_perm : ∀ m, walk m ≡ₚ map_to_list m
}.

Definition default_order : iteration_order :=
  mk_iteration_order map_to_list (λ m, reflexivity (map_to_list m)).

(** The predicate of the two [std::find_if] calls. *)
Definition joins (from to : node_ptr) (elem : N * (N * N)) : bool :=
  bool_decide (elem.2.1 = from ∧ elem.2.2 = to).

(** [remove_arc(node_ptr const& from, node_ptr const& to)]. *)
Definition remove_arc_between (io : iteration_order) (from to : node_ptr)
    (s : adjacency_list) : bool * adjacency_list :=
  match List.find (joins from to) (walk io (endpoint_dic_ s)) with
  | None => (false, s)
  | Some endpoint => remove_arc_private endpoint.1 from to s
  end.

(** The loop of [remove_node] over [backup_stored_arc]; the first
    component of the result is [is_error]. *)
Fixpoint cascade (node : node_ptr) (arcs : list arc_ptr)
    (s : adjacency_list) : bool * adjacency_list :=
  match arcs with
  | [] => (false, s)
  | arc :: arcs' =>
      match endpoint_dic_ s !! arc with
      | None => (true, s)
      | Some (from, to) =>
          if bool_decide (from = node ∨ to = node) then
            match remove_arc arc s with
            | (true, s') => cascade node arcs' s'
            | (false, s') => (true, s')
            end
          else cascade node arcs' s
      end
  end.

(** The restore branch of [remove_node]. *)
Definition restore (backup s : adjacency_list) : adjacency_list :=
  mk_adjacency_list (stored_node_ s) (stored_arc_ backup)
                    (endpoint_dic_ backup) (adjacency_ backup).

Definition remove_node (φ : fault_plan) (node : node_ptr) : M bool :=
  noexcept (λ s,
    match find_last node (stored_node_ s) with
    | None => Return false s
    | Some it =>
        (allocate φ backup_copy ;;
         ((λ backup,
             match cascade node (stored_arc_ backup) backup with
             | (true, s1) => Return false (restore backup s1)
             | (false, s1) =>
                 Return true
                   (set_stored_node (delete it)
                      (set_adjacency (delete node) s1))
             end) : M bool)) s
    end).

(** ** Queries *)

Definition is_connect (node : node_ptr) (arc : arc_ptr)
    (s : adjacency_list) : Z :=
  match endpoint_dic_ s !! arc with
  | None => 0
  | Some (first, second) =>
      if decide (first = node) then 1
      else if decide (second = node) then -1
      else 0
  end%Z.

Definition source (arc : arc_ptr) (s : adjacency_list) : node_ptr :=
  match endpoint_dic_ s !! arc with
  | None => nullptr
  | Some (first, _) => first
  end.

Definition target (arc : arc_ptr) (s : adjacency_list) : node_ptr :=
  match endpoint_dic_ s !! arc with
  | None => nullptr
  | Some (_, second) => second
  end.

(** [adjacency_.at(parent)] throws [std::out_of_range] on a missing key.
    The function is [const]; the state is threaded only so that the
    outcome can be compared with the other member functions'.  The
    memory of the returned vector is not a fault point of the model. *)
Definition child_nodes (parent : node_ptr) : M (list node_ptr) :=
  λ s, match adjacency_ s !! parent with
       | None => Raise out_of_range s
       | Some adjacent => Return (adjacent.*1) s
       end.

(** [is_adjacent(from, to)]: the arc of the first entry, in the order of
    the walk, that joins [from] to [to]; [nullptr] when there is none. *)
Definition is_adjacent (io : iteration_order) (from to : node_ptr)
    (s : adjacency_list) : arc_ptr :=
  match List.find (joins from to) (walk io (endpoint_dic_ s)) with
  | None => nullptr
  | Some endpoint => endpoint.1
  end.

(** [parent_nodes(child)]: the loop over [endpoint_dic_] that pushes the
    source of every entry whose target is [child].  The memory of the
    returned vector is not a fault point of the model. *)
Definition parent_nodes (io : iteration_order) (child : node_ptr)
    (s : adjacency_list) : list node_ptr :=
  foldl (λ nodes endpoint,
           if decide (endpoint.2.2 = child)
           then push_back endpoint.2.1 nodes else nodes)
        [] (walk io (endpoint_dic_ s)).

Definition all_node (s : adjacency_list) : list node_ptr := stored_node_ s.
Definition all_arc (s : adjacency_list) : list arc_ptr := stored_arc_ s.

(** ** Sequences of calls *)

Inductive op :=
  | Add_node (node : node_ptr)
  | Add_arc (arc : arc_ptr) (from to : node_ptr)
  | Remove_node (node : node_ptr)
  | Remove_arc (arc : arc_ptr)
  | Remove_arc_between (io : iteration_order) (from to : node_ptr).

(** A call is successful when it returns normally and, for the removals,
    returns [true].  No allocation fails in a successful sequence. *)
Definition exec_op (o : op) (s : adjacency_list) : option adjacency_list :=
  match o with
  | Add_node node =>
      match add_node no_fault node s with
      | Return _ s' => Some s' | _ => None
      end
  | Add_arc arc from to =>
      match add_arc no_fault arc from to s with
      | Return _ s' => Some s' | _ => None
      end
  | Remove_node node =>
      match remove_node no_fault node s with
      | Return true s' => Some s' | _ => None
      end
  | Remove_arc arc =>
      match remove_arc arc s with
      | (true, s') => Some s' | _ => None
      end
  | Remove_arc_between io from to =>
      match remove_arc_between io from to s with
      | (true, s') => Some s' | _ => None
      end
  end.

Fixpoint run (ops : list op) (s : adjacency_list) : option adjacency_list :=
  match ops with
  | [] => Some s
  | o :: ops' =>
      match exec_op o s with
      | Some s' => run ops' s'
      | None => None
      end
  end.

(** ** Predicates on graphs and on sequences of calls *)

(** The bucket that [adjacency_[node]] designates: the stored one, or the
    empty one it creates. *)
Definition bucket_of (node : node_ptr) (s : adjacency_list)
    : list (N * N) :=
  default [] (adjacency_ s !! node).

(** The key [k] is not in the map, so [m[k]] has to allocate. *)
Definition absent {V} (m : gmap N V) (k : N) : bool :=
  bool_decide (m !! k = None).

(** All three lookups of the primitive succeed. *)
Definition lookups_succeed (arc : arc_ptr) (from to : node_ptr)
    (s : adjacency_list) : Prop :=
  arc ∈ stored_arc_ s ∧
  ∃ b, adjacency_ s !! from = Some b ∧ (to, arc) ∈ b.

(** The three erasures of the primitive, one per structure. *)
Definition erase_adjacency_entry (from : node_ptr) (b : list (N * N))
    (adjacency_it : nat) : adjacency_list → adjacency_list :=
  set_adjacency (insert from (delete adjacency_it b)).

Definition erase_endpoint_entry (arc : arc_ptr)
    : adjacency_list → adjacency_list :=
  set_endpoint_dic (delete arc).

Definition erase_arc_entry (arc_it : nat) : adjacency_list → adjacency_list :=
  set_stored_arc (delete arc_it).

(** The arc list and the endpoint dictionary hold the same arcs, each
    once. *)
Record arcs_registered (s : adjacency_list) : Prop := {
  arcs_nodup : NoDup (stored_arc_ s);
  arcs_indexed : ∀ a, a ∈ stored_arc_ s ↔ is_Some (endpoint_dic_ s !! a)
}.

(** The endpoint dictionary and the buckets hold the same entries, each
    once. *)
Record buckets_mirror (s : adjacency_list) : Prop := {
  endpoint_in_bucket : ∀ a f t,
    endpoint_dic_ s !! a = Some (f, t) →
    ∃ b, adjacency_ s !! f = Some b ∧ (t, a) ∈ b;
  bucket_in_endpoint : ∀ n b t a,
    adjacency_ s !! n = Some b → (t, a) ∈ b →
    endpoint_dic_ s !! a = Some (n, t);
  buckets_nodup : ∀ n b, adjacency_ s !! n = Some b → NoDup b
}.

(** The three arc structures are in step. *)
Definition consistent (s : adjacency_list) : Prop :=
  arcs_registered s ∧ buckets_mirror s.

(** [node] is the indexed source or the indexed target of [arc]. *)
Definition incident (node : node_ptr) (arc : arc_ptr)
    (s : adjacency_list) : Prop :=
  ∃ f t, endpoint_dic_ s !! arc = Some (f, t) ∧ (f = node ∨ t = node).

(** Every indexed endpoint is a non-null pointer. *)
Definition endpoints_nonnull (s : adjacency_list) : Prop :=
  ∀ a f t, endpoint_dic_ s !! a = Some (f, t) → f ≠ nullptr ∧ t ≠ nullptr.

(** [arc] has an entry in the bucket of [node]. *)
Definition in_bucket (node : node_ptr) (arc : arc_ptr)
    (s : adjacency_list) : Prop :=
  ∃ b t, adjacency_ s !! node = Some b ∧ (t, arc) ∈ b.

(** The three structures agree on [arc]: it is in the arc list iff it is
    in the endpoint index iff it is in exactly one bucket; a bucket that
    holds it is the bucket of its indexed source, and holds it once. *)
Definition arc_invariant (s : adjacency_list) (arc : arc_ptr) : Prop :=
  (arc ∈ stored_arc_ s ↔ is_Some (endpoint_dic_ s !! arc)) ∧
  (is_Some (endpoint_dic_ s !! arc) ↔
   ∃ n, in_bucket n arc s ∧ ∀ n', in_bucket n' arc s → n' = n) ∧
  (∀ n, in_bucket n arc s → ∃ t, endpoint_dic_ s !! arc = Some (n, t)) ∧
  (∀ n b, adjacency_ s !! n = Some b →
          length (filter (λ e, e.2 = arc) b) ≤ 1).

(** [each_step P ops s]: every call of [ops], run from [s], satisfies [P]
    in the state it is applied to. *)
Fixpoint each_step (P : op → adjacency_list → bool) (ops : list op)
    (s : adjacency_list) : bool :=
  match ops with
  | [] => true
  | o :: ops' =>
      P o s &&
      match exec_op o s with
      | Some s' => each_step P ops' s'
      | None => true
      end
  end.

(** [add_arc] is given an arc that is not in the arc list. *)
Definition takes_fresh_arc (o : op) (s : adjacency_list) : bool :=
  match o with
  | Add_arc arc _ _ => bool_decide (arc ∉ stored_arc_ s)
  | _ => true
  end.

(** [add_node] is given a node whose bucket is missing or empty. *)
Definition takes_fresh_node (o : op) (s : adjacency_list) : bool :=
  match o with
  | Add_node node => bool_decide (bucket_of node s = [])
  | _ => true
  end.

(** Both of the above. *)
Definition disciplined (o : op) (s : adjacency_list) : bool :=
  takes_fresh_arc o s && takes_fresh_node o s.

(** [add_arc] is given two non-null nodes. *)
Definition proper_endpoints (o : op) (s : adjacency_list) : bool :=
  match o with
  | Add_arc _ from to => bool_decide (from ≠ nullptr ∧ to ≠ nullptr)
  | _ => true
  end.

(** [add_node] is given a node that is not in the node list. *)
Definition takes_new_node (o : op) (s : adjacency_list) : bool :=
  match o with
  | Add_node node => bool_decide (node ∉ stored_node_ s)
  | _ => true
  end.

(** The node list has no duplicates and every listed node has a bucket. *)
Definition nodes_have_buckets (s : adjacency_list) : Prop :=
  NoDup (stored_node_ s) ∧
  ∀ n, n ∈ stored_node_ s → is_Some (adjacency_ s !! n).

(** The linear chain [1 → 2 → 3] with arcs [11] and [12], then the
    removal of the middle node; the graph before and after that removal. *)
Definition chain_ops : list op :=
  [Add_node 1; Add_node 2; Add_node 3; Add_arc 11 1 2; Add_arc 12 2 3;
   Remove_node 2]%N.

Definition chain_before_removal : adjacency_list :=
  mk_adjacency_list [1; 2; 3]%N [11; 12]%N
    {[ 11%N := (1, 2)%N; 12%N := (2, 3)%N ]}
    {[ 1%N := [(2, 11)%N]; 2%N := [(3, 12)%N]; 3%N := [] ]}.

Definition chain_graph : adjacency_list :=
  mk_adjacency_list [1; 3]%N [] ∅ {[ 1%N := []; 3%N := [] ]}.

(** * Properties *)

(** ** Iterators *)

Section list_iterator_facts.
Context {A : Type} `{EqDecision A}.
Implicit Types (x : A) (l : list A).

Lemma find_first_None x l : find_first x l = None ↔ x ∉ l.
Proof.
  induction l as [|y l IH]; simpl.
  - split; [intros _; apply not_elem_of_nil | done].
  - rewrite not_elem_of_cons. destruct (decide (x = y)) as [->|Hne].
    + split; [done | intros [? _]; done].
    + rewrite fmap_None, IH. tauto.
Qed.

Lemma find_first_Some x l i :
  find_first x l = Some i →
  ∃ l1 l2, l = l1 ++ x :: l2 ∧ (x ∉ l1) ∧ length l1 = i ∧
           delete i l = l1 ++ l2.
Proof.
  revert i. induction l as [|y l IH]; intros i; simpl; [done|].
  destruct (decide (x = y)) as [->|Hne].
  - intros [= <-]. exists [], l. split_and!; auto using not_elem_of_nil.
  - intros (j & Hj & ->)%fmap_Some.
    destruct (IH j Hj) as (l1 & l2 & -> & Hn & Hlen & Hdel).
    exists (y :: l1), l2. simpl. split_and!; auto.
    + rewrite not_elem_of_cons. done.
    + by f_equal.
Qed.

Lemma find_last_None x l : find_last x l = None ↔ x ∉ l.
Proof.
  induction l as [|y l IH]; simpl.
  - split; [intros _; apply not_elem_of_nil | done].
  - rewrite not_elem_of_cons. destruct (find_last x l) as [j|].
    + split; [done | intros [_ Hn]; apply IH in Hn; done].
    + destruct (decide (x = y)) as [->|Hne].
      * split; [done | intros [? _]; done].
      * split; [intros _; split; [done | by apply IH] | done].
Qed.

Lemma find_last_Some x l i :
  find_last x l = Some i →
  ∃ l1 l2, l = l1 ++ x :: l2 ∧ (x ∉ l2) ∧ length l1 = i ∧
           delete i l = l1 ++ l2.
Proof.
  revert i. induction l as [|y l IH]; intros i; simpl; [done|].
  destruct (find_last x l) as [j|] eqn:Hj.
  - intros [= <-].
    destruct (IH j eq_refl) as (l1 & l2 & -> & Hn & Hlen & Hdel).
    exists (y :: l1), l2. simpl. split_and!; auto. by f_equal.
  - destruct (decide (x = y)) as [->|Hne]; [|done].
    intros [= <-]. exists [], l. split_and!; auto.
    by apply find_last_None.
Qed.

Lemma find_last_is_Some x l : x ∈ l → is_Some (find_last x l).
Proof.
  intros Hin. destruct (find_last x l) eqn:E; [by eexists|].
  by apply find_last_None in E.
Qed.

Lemma find_first_is_Some x l : x ∈ l → is_Some (find_first x l).
Proof.
  intros Hin. destruct (find_first x l) eqn:E; [by eexists|].
  by apply find_first_None in E.
Qed.

Lemma pop_back_push_back x l : pop_back (push_back x l) = l.
Proof. unfold pop_back, push_back. apply removelast_last. Qed.
End list_iterator_facts.

(** ** The calls when no allocation fails *)

Lemma alter_const_insert {V} (m : gmap N V) (k : N) (v w : V) :
  alter (λ _, w) k (<[k:=v]> m) = <[k:=w]> m.
Proof. by rewrite alter_insert_eq. Qed.

Lemma alter_present_insert {V} (m : gmap N V) (k : N) (f : V → V) (v : V) :
  m !! k = Some v → alter f k m = <[k:=f v]> m.
Proof.
  intros Hk. apply map_eq; intros i. rewrite lookup_alter, lookup_insert.
  case_decide; subst; by rewrite ?Hk.
Qed.

Lemma add_node_no_fault node s :
  add_node no_fault node s =
  Return node
    (mk_adjacency_list (stored_node_ s ++ [node]) (stored_arc_ s)
       (endpoint_dic_ s) (<[node:=[]]> (adjacency_ s))).
Proof.
  unfold add_node, mbind, M_bind, try_catch, subscript, allocate, modify,
    mret, M_ret, mbind, M_bind, no_fault; simpl.
  destruct (adjacency_ s !! node) as [b|] eqn:Hb; simpl.
  - unfold set_adjacency, set_stored_node, push_back; simpl.
    by rewrite (alter_present_insert _ _ _ b).
  - unfold set_adjacency, set_stored_node, push_back; simpl.
    by rewrite alter_const_insert.
Qed.

Lemma add_arc_no_fault arc from to s :
  add_arc no_fault arc from to s =
  Return arc
    (mk_adjacency_list (stored_node_ s) (stored_arc_ s ++ [arc])
       (<[arc:=(from, to)]> (endpoint_dic_ s))
       (<[from:=bucket_of from s ++ [(to, arc)]]> (adjacency_ s))).
Proof.
  unfold add_arc, mbind, M_bind, try_catch, subscript, allocate, modify,
    mret, M_ret, mbind, M_bind, no_fault, bucket_of; simpl.
  destruct (endpoint_dic_ s !! arc) as [p|] eqn:Hp; simpl;
    destruct (adjacency_ s !! from) as [b|] eqn:Hb; simpl;
    unfold set_adjacency, set_endpoint_dic, set_stored_arc, push_back; simpl;
    rewrite ?insert_insert_eq;
    first [ by rewrite (alter_present_insert _ _ _ b)
          | by rewrite alter_insert_eq ].
Qed.

(** ** The private removal primitive *)


Lemma remove_arc_private_false arc from to s :
  ¬ lookups_succeed arc from to s →
  remove_arc_private arc from to s = (false, s).
Proof.
  intros Hfail. unfold remove_arc_private.
  destruct (find_last arc (stored_arc_ s)) as [i|] eqn:Hi; [|done].
  destruct (adjacency_ s !! from) as [b|] eqn:Hb; [|done].
  destruct (find_first (to, arc) b) as [j|] eqn:Hj; [|done].
  exfalso. apply Hfail. split.
  - apply find_last_Some in Hi as (l1 & l2 & -> & _). set_solver.
  - exists b. split; [done|].
    apply find_first_Some in Hj as (b1 & b2 & -> & _). set_solver.
Qed.

Lemma remove_arc_private_true arc from to s :
  lookups_succeed arc from to s →
  ∃ l1 l2 b1 b2,
    stored_arc_ s = l1 ++ arc :: l2 ∧ (arc ∉ l2) ∧
    adjacency_ s !! from = Some (b1 ++ (to, arc) :: b2) ∧
    ((to, arc) ∉ b1) ∧
    remove_arc_private arc from to s =
      (true,
       erase_arc_entry (length l1)
         (erase_endpoint_entry arc
            (erase_adjacency_entry from (b1 ++ (to, arc) :: b2)
               (length b1) s))) ∧
    remove_arc_private arc from to s =
      (true,
       mk_adjacency_list (stored_node_ s) (l1 ++ l2)
         (delete arc (endpoint_dic_ s))
         (<[from:=b1 ++ b2]> (adjacency_ s))).
Proof.
  intros (Harc & b & Hb & Hin). unfold remove_arc_private.
  destruct (find_last_is_Some _ _ Harc) as [i Hi].
  destruct (find_first_is_Some _ _ Hin) as [j Hj].
  rewrite Hi, Hb, Hj.
  apply find_last_Some in Hi as (l1 & l2 & Hl & Hn2 & <- & Hdel).
  apply find_first_Some in Hj as (b1 & b2 & -> & Hn1 & <- & Hdelb).
  exists l1, l2, b1, b2. split_and!; try done.
  unfold set_stored_arc, set_endpoint_dic, set_adjacency; simpl.
  by rewrite Hdel, Hdelb.
Qed.

Lemma lookups_succeed_dec arc from to s :
  Decision (lookups_succeed arc from to s).
Proof.
  unfold lookups_succeed.
  destruct (adjacency_ s !! from) as [b|].
  - destruct (decide (arc ∈ stored_arc_ s ∧ (to, arc) ∈ b)) as [[??]|Hn].
    + left. eauto.
    + right. intros (? & b' & [= <-] & ?). tauto.
  - right. intros (? & b' & [=] & ?).
Defined.

(** What a call of the primitive does, by its outcome. *)
Lemma remove_arc_private_cases arc from to s :
  (¬ lookups_succeed arc from to s ∧
   remove_arc_private arc from to s = (false, s)) ∨
  (∃ l1 l2 b1 b2,
     stored_arc_ s = l1 ++ arc :: l2 ∧ (arc ∉ l2) ∧
     adjacency_ s !! from = Some (b1 ++ (to, arc) :: b2) ∧
     ((to, arc) ∉ b1) ∧
     remove_arc_private arc from to s =
       (true,
        mk_adjacency_list (stored_node_ s) (l1 ++ l2)
          (delete arc (endpoint_dic_ s))
          (<[from:=b1 ++ b2]> (adjacency_ s)))).
Proof.
  destruct (lookups_succeed_dec arc from to s) as [Hok|Hfail].
  - right. destruct (remove_arc_private_true _ _ _ _ Hok)
      as (l1 & l2 & b1 & b2 & ? & ? & ? & ? & _ & ?).
    exists l1, l2, b1, b2. done.
  - left. split; [done|]. by apply remove_arc_private_false.
Qed.

Lemma remove_arc_private_stored_node arc from to s :
  stored_node_ (remove_arc_private arc from to s).2 = stored_node_ s.
Proof.
  destruct (remove_arc_private_cases arc from to s)
    as [[_ ->]|(?&?&?&?&_&_&_&_& ->)]; done.
Qed.

Lemma remove_arc_stored_node arc s :
  stored_node_ (remove_arc arc s).2 = stored_node_ s.
Proof.
  unfold remove_arc. destruct (endpoint_dic_ s !! arc) as [[f t]|]; [|done].
  apply remove_arc_private_stored_node.
Qed.

Lemma remove_arc_between_stored_node io from to s :
  stored_node_ (remove_arc_between io from to s).2 = stored_node_ s.
Proof.
  unfold remove_arc_between.
  destruct (List.find _ _); [|done]. apply remove_arc_private_stored_node.
Qed.

Lemma cascade_stored_node node arcs s :
  stored_node_ (cascade node arcs s).2 = stored_node_ s.
Proof.
  revert s. induction arcs as [|a arcs IH]; intros s; simpl; [done|].
  destruct (endpoint_dic_ s !! a) as [[f t]|]; [|done].
  case_bool_decide; [|apply IH].
  pose proof (remove_arc_stored_node a s) as Hs.
  destruct (remove_arc a s) as [[] s']; simpl in *; [|done].
  by rewrite IH.
Qed.

(** The four ways a call of [remove_node] can go. *)
Lemma remove_node_cases φ node s :
  ((node ∉ stored_node_ s) ∧ remove_node φ node s = Return false s) ∨
  (node ∈ stored_node_ s ∧ φ backup_copy = true ∧
   remove_node φ node s = Terminate) ∨
  (node ∈ stored_node_ s ∧ φ backup_copy = false ∧
   (cascade node (stored_arc_ s) s).1 = true ∧
   remove_node φ node s = Return false s) ∨
  (∃ l1 l2 s1,
     stored_node_ s = l1 ++ node :: l2 ∧ (node ∉ l2) ∧
     φ backup_copy = false ∧
     cascade node (stored_arc_ s) s = (false, s1) ∧
     remove_node φ node s =
       Return true
         (mk_adjacency_list (l1 ++ l2) (stored_arc_ s1) (endpoint_dic_ s1)
            (delete node (adjacency_ s1)))).
Proof.
  unfold remove_node, noexcept, mbind, M_bind, allocate.
  destruct (find_last node (stored_node_ s)) as [i|] eqn:Hi.
  - apply find_last_Some in Hi as Hi'.
    destruct Hi' as (l1 & l2 & Hl & Hn & <- & Hdel).
    assert (node ∈ stored_node_ s) by (rewrite Hl; set_solver).
    right. destruct (φ backup_copy); [left; done|right].
    pose proof (cascade_stored_node node (stored_arc_ s) s) as Hsn.
    destruct (cascade node (stored_arc_ s) s) as [[] s1]; simpl in *.
    + left. split_and!; try done. f_equal. unfold restore.
      rewrite Hsn. by destruct s.
    + right. exists l1, l2, s1. split_and!; try done.
      unfold set_stored_node, set_adjacency; simpl.
      by rewrite Hsn, Hdel.
  - left. split; [by apply find_last_None|done].
Qed.

(** ** Consistency of the three arc structures *)

Lemma arcs_registered_empty : arcs_registered empty_graph.
Proof.
  split; simpl.
  - constructor.
  - intros a. rewrite lookup_empty, elem_of_nil.
    split; [done | by intros [? ?]].
Qed.

Lemma consistent_empty : consistent empty_graph.
Proof.
  split; [apply arcs_registered_empty|].
  split; simpl; intros *; rewrite lookup_empty; done.
Qed.

Lemma arcs_registered_adjacency s nodes adj :
  arcs_registered s →
  arcs_registered
    (mk_adjacency_list nodes (stored_arc_ s) (endpoint_dic_ s) adj).
Proof. intros [??]. by split. Qed.

Lemma arcs_registered_add_arc s arc from to adj :
  arcs_registered s → arc ∉ stored_arc_ s →
  arcs_registered
    (mk_adjacency_list (stored_node_ s) (stored_arc_ s ++ [arc])
       (<[arc:=(from, to)]> (endpoint_dic_ s)) adj).
Proof.
  intros [Hnd Hidx] Hfresh. split; simpl.
  - apply NoDup_app. split_and!; [done| |apply NoDup_singleton].
    intros x Hx ->%list_elem_of_singleton. done.
  - intros a. rewrite elem_of_app, list_elem_of_singleton, lookup_insert_is_Some.
    rewrite Hidx. destruct (decide (arc = a)); naive_solver.
Qed.

Lemma arcs_registered_erase s arc l1 l2 adj :
  arcs_registered s → stored_arc_ s = l1 ++ arc :: l2 →
  arcs_registered
    (mk_adjacency_list (stored_node_ s) (l1 ++ l2)
       (delete arc (endpoint_dic_ s)) adj).
Proof.
  intros [Hnd Hidx] Hl. rewrite Hl in Hnd.
  apply NoDup_app in Hnd as (Hnd1 & Hdisj & [Harc Hnd2]%NoDup_cons).
  split; simpl.
  - apply NoDup_app. split_and!; [done| |done].
    intros x Hx Hx2. apply (Hdisj x Hx). set_solver.
  - intros a. rewrite lookup_delete_is_Some, <-Hidx, Hl.
    rewrite !elem_of_app, elem_of_cons. split.
    + intros Ha. split; [|tauto]. intros <-. destruct Ha as [Ha|Ha]; [|done].
      apply (Hdisj arc Ha). set_solver.
    + intros [Hne [?|[?|?]]]; [by left|congruence|by right].
Qed.

Lemma remove_arc_private_arcs_registered arc from to s :
  arcs_registered s → arcs_registered (remove_arc_private arc from to s).2.
Proof.
  intros Hs. destruct (remove_arc_private_cases arc from to s)
    as [[_ ->]|(l1 & l2 & b1 & b2 & Hl & _ & _ & _ & ->)]; [done|].
  by apply arcs_registered_erase.
Qed.

Lemma remove_arc_arcs_registered arc s :
  arcs_registered s → arcs_registered (remove_arc arc s).2.
Proof.
  intros Hs. unfold remove_arc.
  destruct (endpoint_dic_ s !! arc) as [[f t]|]; [|done].
  by apply remove_arc_private_arcs_registered.
Qed.

Lemma cascade_arcs_registered node arcs s :
  arcs_registered s → arcs_registered (cascade node arcs s).2.
Proof.
  revert s. induction arcs as [|a arcs IH]; intros s Hs; simpl; [done|].
  destruct (endpoint_dic_ s !! a) as [[f t]|]; [|done].
  case_bool_decide; [|by apply IH].
  pose proof (remove_arc_arcs_registered a s Hs) as Hs'.
  destruct (remove_arc a s) as [[] s']; simpl in *; [by apply IH|done].
Qed.

Lemma exec_op_arcs_registered o s s' :
  arcs_registered s →
  (∀ arc from to, o = Add_arc arc from to → arc ∉ stored_arc_ s) →
  exec_op o s = Some s' → arcs_registered s'.
Proof.
  intros Hs Hfresh. destruct o as [n|a f t|n|a|io f t]; simpl.
  - rewrite add_node_no_fault. intros [= <-].
    by apply (arcs_registered_adjacency s).
  - rewrite add_arc_no_fault. intros [= <-].
    apply arcs_registered_add_arc; eauto.
  - destruct (remove_node_cases no_fault n s)
      as [[_ ->]|[(_ & [=] & _)|[(_ & _ & _ & ->)|
          (l1 & l2 & s1 & _ & _ & _ & Hc & ->)]]]; try done.
    intros [= <-].
    pose proof (cascade_arcs_registered n (stored_arc_ s) s Hs) as Hs1.
    rewrite Hc in Hs1. by apply (arcs_registered_adjacency s1).
  - pose proof (remove_arc_arcs_registered a s Hs) as Hs'.
    destruct (remove_arc a s) as [[] s1]; [|done]. by intros [= <-].
  - unfold remove_arc_between. destruct (List.find _ _) as [e|]; [|done].
    pose proof (remove_arc_private_arcs_registered e.1 f t s Hs) as Hs'.
    destruct (remove_arc_private e.1 f t s) as [[] s1]; [|done].
    by intros [= <-].
Qed.

Lemma consistent_add_node s node :
  consistent s → bucket_of node s = [] →
  consistent
    (mk_adjacency_list (stored_node_ s ++ [node]) (stored_arc_ s)
       (endpoint_dic_ s) (<[node:=[]]> (adjacency_ s))).
Proof.
  intros [Hreg [Heb Hbe Hnd]] Hempty. unfold bucket_of in Hempty.
  split; [by apply (arcs_registered_adjacency s)|]. split; simpl.
  - intros a f t Ha. destruct (Heb a f t Ha) as (b & Hb & Hin).
    destruct (decide (node = f)) as [->|Hne].
    + rewrite Hb in Hempty; simpl in Hempty; subst b.
      by apply elem_of_nil in Hin.
    + exists b. by rewrite lookup_insert_ne.
  - intros n b t a [[-> <-]|[Hne Hb]]%lookup_insert_Some Hin.
    + by apply elem_of_nil in Hin.
    + eauto.
  - intros n b [[-> <-]|[Hne Hb]]%lookup_insert_Some; [constructor|eauto].
Qed.

Lemma consistent_add_arc s arc from to :
  consistent s → arc ∉ stored_arc_ s →
  consistent
    (mk_adjacency_list (stored_node_ s) (stored_arc_ s ++ [arc])
       (<[arc:=(from, to)]> (endpoint_dic_ s))
       (<[from:=bucket_of from s ++ [(to, arc)]]> (adjacency_ s))).
Proof.
  intros [Hreg [Heb Hbe Hnd]] Hfresh.
  assert (endpoint_dic_ s !! arc = None) as Hnone.
  { apply eq_None_not_Some. by rewrite <-(arcs_indexed s Hreg). }
  assert (∀ b t a, adjacency_ s !! from = Some b → (t, a) ∈ b → a ≠ arc)
    as Hold.
  { intros b t a Hb Hin ->. specialize (Hbe _ _ _ _ Hb Hin). congruence. }
  split; [by apply arcs_registered_add_arc|]. split; simpl.
  - intros a f t [[-> [= <- <-]]|[Hne Ha]]%lookup_insert_Some.
    + eexists. rewrite lookup_insert_eq. split; [done|]. set_solver.
    + destruct (Heb a f t Ha) as (b & Hb & Hin).
      destruct (decide (from = f)) as [->|Hnf].
      * eexists. rewrite lookup_insert_eq. split; [done|].
        unfold bucket_of. rewrite Hb. set_solver.
      * exists b. by rewrite lookup_insert_ne.
  - intros n b t a [[<- <-]|[Hne Hb]]%lookup_insert_Some Hin.
    + apply elem_of_app in Hin as [Hin|[= -> ->]%list_elem_of_singleton].
      * unfold bucket_of in Hin.
        destruct (adjacency_ s !! from) as [b0|] eqn:Hb0; simpl in Hin;
          [|by apply elem_of_nil in Hin].
        rewrite lookup_insert_ne; eauto.
        intros <-. by eapply Hold.
      * by rewrite lookup_insert_eq.
    + pose proof (Hbe _ _ _ _ Hb Hin) as Ha.
      rewrite lookup_insert_ne; [done|]. intros <-. congruence.
  - intros n b [[<- <-]|[Hne Hb]]%lookup_insert_Some; [|eauto].
    unfold bucket_of.
    destruct (adjacency_ s !! from) as [b0|] eqn:Hb0; simpl;
      [|apply NoDup_singleton].
    apply NoDup_app. split_and!; [eauto| |apply NoDup_singleton].
    intros [t a] Hin [= -> ->]%list_elem_of_singleton. by eapply Hold.
Qed.

Lemma consistent_erase s arc from to l1 l2 b1 b2 :
  consistent s →
  stored_arc_ s = l1 ++ arc :: l2 →
  adjacency_ s !! from = Some (b1 ++ (to, arc) :: b2) →
  consistent
    (mk_adjacency_list (stored_node_ s) (l1 ++ l2)
       (delete arc (endpoint_dic_ s))
       (<[from:=b1 ++ b2]> (adjacency_ s))).
Proof.
  intros [Hreg [Heb Hbe Hnd]] Hl Hb.
  assert (endpoint_dic_ s !! arc = Some (from, to)) as Harc.
  { apply (Hbe _ _ _ _ Hb). set_solver. }
  pose proof (Hnd _ _ Hb) as Hndb.
  apply NoDup_app in Hndb as (Hnd1 & Hdisj & [Hn2 Hnd2]%NoDup_cons).
  assert ((to, arc) ∉ b1 ++ b2) as Hgone.
  { rewrite elem_of_app. intros [Hin|Hin]; [|done].
    apply (Hdisj _ Hin). set_solver. }
  split; [by apply arcs_registered_erase|]. split; simpl.
  - intros a f t [Hne Ha]%lookup_delete_Some.
    destruct (Heb a f t Ha) as (b & Hb' & Hin).
    destruct (decide (from = f)) as [->|Hnf].
    + eexists. rewrite lookup_insert_eq. split; [done|].
      rewrite Hb in Hb'. injection Hb' as <-.
      rewrite elem_of_app, elem_of_cons in Hin. rewrite elem_of_app.
      destruct Hin as [?|[[= -> ->]|?]]; [by left|done|by right].
    + exists b. by rewrite lookup_insert_ne.
  - intros n b t a [[<- <-]|[Hne Hb']]%lookup_insert_Some Hin.
    + assert (endpoint_dic_ s !! a = Some (from, t)) as Ha.
      { apply (Hbe _ _ _ _ Hb). set_solver. }
      rewrite lookup_delete_ne; [done|]. intros <-.
      rewrite Harc in Ha. injection Ha as <-. done.
    + pose proof (Hbe _ _ _ _ Hb' Hin) as Ha.
      rewrite lookup_delete_ne; [done|]. intros <-. congruence.
  - intros n b [[<- <-]|[Hne Hb']]%lookup_insert_Some; [|eauto].
    apply NoDup_app. split_and!; [done| |done].
    intros x Hx Hx2. apply (Hdisj _ Hx). set_solver.
Qed.

Lemma remove_arc_private_consistent arc from to s :
  consistent s → consistent (remove_arc_private arc from to s).2.
Proof.
  intros Hs. destruct (remove_arc_private_cases arc from to s)
    as [[_ ->]|(l1 & l2 & b1 & b2 & Hl & _ & Hb & _ & ->)]; [done|].
  by eapply consistent_erase.
Qed.

(** On a consistent graph, removing a registered arc succeeds and takes
    away that arc and nothing else. *)
Lemma remove_arc_registered arc s :
  consistent s → arc ∈ stored_arc_ s →
  ∃ s', remove_arc arc s = (true, s') ∧ consistent s' ∧
        (∀ a, a ∈ stored_arc_ s' ↔ a ∈ stored_arc_ s ∧ a ≠ arc) ∧
        endpoint_dic_ s' = delete arc (endpoint_dic_ s).
Proof.
  intros Hs Harc. pose proof Hs as [Hreg [Heb Hbe Hnd]].
  unfold remove_arc.
  destruct (proj1 (arcs_indexed s Hreg arc) Harc) as [[f t] Hft].
  rewrite Hft. destruct (Heb _ _ _ Hft) as (b & Hb & Hin).
  destruct (remove_arc_private_true arc f t s)
    as (l1 & l2 & b1 & b2 & Hl & Hn2 & Hb' & _ & _ & ->).
  { split; eauto. }
  eexists. split; [done|]. split; [by eapply consistent_erase|].
  split; [|done]. simpl. intros a.
  pose proof (arcs_nodup s Hreg) as Hndl. rewrite Hl in Hndl |- *.
  apply NoDup_app in Hndl as (_ & Hdisj & _).
  rewrite !elem_of_app, elem_of_cons. split.
  - intros Ha. split; [tauto|]. intros ->. destruct Ha as [Ha|Ha]; [|done].
    apply (Hdisj _ Ha). set_solver.
  - intros [[?|[?|?]] Hne]; [by left|done|by right].
Qed.

(** ** The cascade of [remove_node] *)

Lemma cascade_consistent node arcs s :
  consistent s → NoDup arcs → (∀ a, a ∈ arcs → a ∈ stored_arc_ s) →
  ∃ s', cascade node arcs s = (false, s') ∧ consistent s' ∧
        (∀ a, a ∈ stored_arc_ s' ↔
              a ∈ stored_arc_ s ∧ (a ∈ arcs → ¬ incident node a s)) ∧
        (∀ a, a ∈ stored_arc_ s' →
              endpoint_dic_ s' !! a = endpoint_dic_ s !! a).
Proof.
  revert s. induction arcs as [|a0 arcs IH]; intros s Hs Hnd Hsub; simpl.
  { exists s. split_and!; try done. intros a. rewrite elem_of_nil. tauto. }
  apply NoDup_cons in Hnd as [Hn0 Hnd].
  assert (a0 ∈ stored_arc_ s) as Ha0 by (apply Hsub; set_solver).
  destruct (proj1 (arcs_indexed s (proj1 Hs) a0) Ha0) as [[f t] Hft].
  rewrite Hft. case_bool_decide as Hinc.
  - destruct (remove_arc_registered a0 s Hs Ha0)
      as (s1 & -> & Hs1 & Hmem1 & Hed1).
    destruct (IH s1 Hs1 Hnd) as (s' & -> & Hs' & Hmem' & Hed').
    { intros a Ha. apply Hmem1. split; [apply Hsub; set_solver|].
      intros ->. done. }
    exists s'. split_and!; try done.
    + intros a. rewrite Hmem', Hmem1, elem_of_cons. split.
      * intros [[Ha Hne] Hrest]. split; [done|].
        intros [->|Hin]; [done|]. intros (f' & t' & Hft' & Hor).
        apply (Hrest Hin). exists f', t'. split; [|done].
        by rewrite Hed1, lookup_delete_ne.
      * intros [Ha Hrest]. split_and!; [done| |].
        -- intros ->. apply Hrest; [by left|]. by exists f, t.
        -- intros Hin (f' & t' & Hft' & Hor). apply Hrest; [by right|].
           exists f', t'. split; [|done].
           rewrite Hed1 in Hft'. by apply lookup_delete_Some in Hft' as [_ ?].
    + intros a Ha. rewrite (Hed' a Ha), Hed1.
      apply Hmem', proj1, Hmem1 in Ha as [_ Hne].
      by rewrite lookup_delete_ne.
  - destruct (IH s Hs Hnd) as (s' & -> & Hs' & Hmem' & Hed').
    { intros a Ha. apply Hsub. set_solver. }
    exists s'. split_and!; try done.
    intros a. rewrite Hmem', elem_of_cons. split.
    + intros [Ha Hrest]. split; [done|].
      intros [->|Hin]; [|by apply Hrest].
      intros (f' & t' & Hft' & Hor). rewrite Hft in Hft'.
      injection Hft' as <- <-. done.
    + intros [Ha Hrest]. split; [done|]. intros Hin. apply Hrest. by right.
Qed.

(** On a consistent graph the cascade meets no error: [remove_node] of a
    registered node returns [true], every arc incident to the node is
    gone, and the graph is consistent again. *)
Lemma remove_node_registered node s :
  consistent s → node ∈ stored_node_ s →
  ∃ l1 l2 s',
    remove_node no_fault node s = Return true s' ∧
    stored_node_ s = l1 ++ node :: l2 ∧ (node ∉ l2) ∧
    stored_node_ s' = l1 ++ l2 ∧
    consistent s' ∧
    (∀ a, a ∈ stored_arc_ s' ↔ a ∈ stored_arc_ s ∧ ¬ incident node a s).
Proof.
  intros Hs Hnode.
  destruct (cascade_consistent node (stored_arc_ s) s Hs)
    as (s1 & Hc & Hs1 & Hmem & Hed); [apply (arcs_nodup s), Hs|done|].
  destruct (remove_node_cases no_fault node s)
    as [[? _]|[(_ & [=] & _)|[(_ & _ & Herr & _)|
        (l1 & l2 & s1' & Hl & Hn & _ & Hc' & ->)]]]; try done.
  { by rewrite Hc in Herr. }
  rewrite Hc in Hc'. injection Hc' as <-.
  eexists l1, l2, _. split_and!; try done.
  - destruct Hs1 as [Hreg1 [Heb Hbe Hnd]].
    split; [by apply (arcs_registered_adjacency s1)|]. split; simpl.
    + intros a f t Ha. destruct (Heb a f t Ha) as (b & Hb & Hin).
      exists b. split; [|done]. rewrite lookup_delete_ne; [done|].
      intros <-.
      assert (a ∈ stored_arc_ s1) as Ha1
        by (apply (arcs_indexed s1 Hreg1); eauto).
      apply (Hmem a) in Ha1 as Hold. destruct Hold as [Hin0 Hninc].
      apply (Hninc Hin0). exists node, t. split; [|by left].
      by rewrite <-(Hed a Ha1).
    + intros n b t a [_ Hb]%lookup_delete_Some Hin. eauto.
    + intros n b [_ Hb]%lookup_delete_Some. eauto.
  - simpl. intros a. rewrite Hmem. tauto.
Qed.

(** ** Sequences of successful calls *)

Lemma run_invariant (P : op → adjacency_list → bool)
    (Inv : adjacency_list → Prop) :
  (∀ o s s', Inv s → P o s = true → exec_op o s = Some s' → Inv s') →
  ∀ ops s s', Inv s → each_step P ops s = true → run ops s = Some s' →
              Inv s'.
Proof.
  intros Hstep ops. induction ops as [|o ops IH]; intros s s' Hs HP; simpl.
  - by intros [= <-].
  - simpl in HP. apply andb_prop in HP as [Ho HP].
    destruct (exec_op o s) as [s1|] eqn:Ho1; [|done]. eauto.
Qed.

Lemma exec_op_consistent o s s' :
  consistent s → disciplined o s = true → exec_op o s = Some s' →
  consistent s'.
Proof.
  intros Hs [Harc Hnode]%andb_prop.
  destruct o as [n|a f t|n|a|io f t]; simpl in *.
  - rewrite add_node_no_fault. intros [= <-].
    apply bool_decide_eq_true in Hnode. by apply consistent_add_node.
  - rewrite add_arc_no_fault. intros [= <-].
    apply bool_decide_eq_true in Harc. by apply consistent_add_arc.
  - destruct (remove_node_cases no_fault n s)
      as [[_ ->]|[(_ & [=] & _)|[(_ & _ & _ & ->)|
          (l1 & l2 & s1 & Hl & _ & _ & _ & Hr)]]]; try done.
    destruct (remove_node_registered n s Hs)
      as (? & ? & s2 & -> & _ & _ & _ & Hs2 & _);
      [rewrite Hl; set_solver|].
    by intros [= <-].
  - pose proof (remove_arc_private_consistent a) as Hp.
    unfold remove_arc. destruct (endpoint_dic_ s !! a) as [[f t]|]; [|done].
    specialize (Hp f t s Hs).
    destruct (remove_arc_private a f t s) as [[] s1]; [|done].
    by intros [= <-].
  - unfold remove_arc_between. destruct (List.find _ _) as [e|]; [|done].
    pose proof (remove_arc_private_consistent e.1 f t s Hs) as Hp.
    destruct (remove_arc_private e.1 f t s) as [[] s1]; [|done].
    by intros [= <-].
Qed.

Lemma run_consistent ops s s' :
  consistent s → each_step disciplined ops s = true →
  run ops s = Some s' → consistent s'.
Proof. apply run_invariant, exec_op_consistent. Qed.

Lemma run_arcs_registered ops s s' :
  arcs_registered s → each_step takes_fresh_arc ops s = true →
  run ops s = Some s' → arcs_registered s'.
Proof.
  apply run_invariant. intros o s0 s1 Hs0 Hfresh.
  apply exec_op_arcs_registered; [done|].
  intros arc from to ->. simpl in Hfresh.
  by apply bool_decide_eq_true in Hfresh.
Qed.

Lemma remove_arc_private_endpoints arc from to s a :
  endpoint_dic_ (remove_arc_private arc from to s).2 !! a = None ∨
  endpoint_dic_ (remove_arc_private arc from to s).2 !! a =
    endpoint_dic_ s !! a.
Proof.
  destruct (remove_arc_private_cases arc from to s)
    as [[_ ->]|(l1 & l2 & b1 & b2 & _ & _ & _ & _ & ->)]; [by right|].
  simpl. destruct (decide (arc = a)) as [->|Hne].
  - left. apply lookup_delete_eq.
  - right. by apply lookup_delete_ne.
Qed.

Lemma remove_arc_endpoints arc s a :
  endpoint_dic_ (remove_arc arc s).2 !! a = None ∨
  endpoint_dic_ (remove_arc arc s).2 !! a = endpoint_dic_ s !! a.
Proof.
  unfold remove_arc. destruct (endpoint_dic_ s !! arc) as [[f t]|] eqn:E;
    [|by right].
  apply remove_arc_private_endpoints.
Qed.

Lemma cascade_endpoints node arcs s a :
  endpoint_dic_ (cascade node arcs s).2 !! a = None ∨
  endpoint_dic_ (cascade node arcs s).2 !! a = endpoint_dic_ s !! a.
Proof.
  revert s. induction arcs as [|a0 arcs IH]; intros s; simpl; [by right|].
  destruct (endpoint_dic_ s !! a0) as [[f t]|] eqn:E; [|by right].
  case_bool_decide; [|apply IH].
  pose proof (remove_arc_endpoints a0 s a) as Hr.
  destruct (remove_arc a0 s) as [[] s1]; simpl in *; [|done].
  destruct (IH s1) as [-> | ->]; [by left|done].
Qed.

Lemma exec_op_endpoints_nonnull o s s' :
  endpoints_nonnull s → proper_endpoints o s = true →
  exec_op o s = Some s' → endpoints_nonnull s'.
Proof.
  intros Hs Hok. destruct o as [n|a f t|n|a|io f t]; simpl in *.
  - rewrite add_node_no_fault. by intros [= <-].
  - rewrite add_arc_no_fault. intros [= <-] a' f' t'. simpl.
    apply bool_decide_eq_true in Hok.
    intros [[Ha Heq]|[Ha Hold]]%lookup_insert_Some; [injection Heq as <- <-|]; eauto.
  - destruct (remove_node_cases no_fault n s)
      as [[_ ->]|[(_ & [=] & _)|[(_ & _ & _ & ->)|
          (l1 & l2 & s1 & _ & _ & _ & Hc & ->)]]]; try done.
    intros [= <-] a' f' t'. simpl.
    destruct (cascade_endpoints n (stored_arc_ s) s a') as [Hn|He];
      rewrite Hc in *; simpl in *; [by rewrite Hn|rewrite He; eauto].
  - pose proof (remove_arc_endpoints a s) as Hr.
    destruct (remove_arc a s) as [[] s1]; [|done]. intros [= <-] a' f' t'.
    destruct (Hr a') as [Hn|He]; simpl in *;
      [by rewrite Hn|rewrite He; eauto].
  - unfold remove_arc_between. destruct (List.find _ _) as [e|]; [|done].
    pose proof (remove_arc_private_endpoints e.1 f t s) as Hr.
    destruct (remove_arc_private e.1 f t s) as [[] s1]; [|done].
    intros [= <-] a' f' t'.
    destruct (Hr a') as [Hn|He]; simpl in *;
      [by rewrite Hn|rewrite He; eauto].
Qed.

Lemma run_endpoints_nonnull ops s s' :
  endpoints_nonnull s → each_step proper_endpoints ops s = true →
  run ops s = Some s' → endpoints_nonnull s'.
Proof. apply run_invariant, exec_op_endpoints_nonnull. Qed.

(** * The claims *)

Example chain_run :
  run (take 5 chain_ops) empty_graph = Some chain_before_removal ∧
  run chain_ops empty_graph = Some chain_graph ∧
  child_nodes 1%N chain_before_removal = Return [2%N] chain_before_removal.
Proof. split_and!; vm_compute; reflexivity. Qed.

Example remove_between_run :
  run [Add_node 1; Add_arc 7 1 2; Remove_arc_between default_order 1 2]%N
      empty_graph =
    Some (mk_adjacency_list [1]%N [] ∅ {[ 1%N := [] ]}) ∧
  run [Remove_node 1]%N empty_graph = None ∧
  run [Remove_arc 1]%N empty_graph = None.
Proof. split_and!; vm_compute; reflexivity. Qed.

(** ** Agreement of the arc list, the endpoint index and the buckets *)

Lemma filter_at_most_one {A} (P : A → Prop) `{∀ x, Decision (P x)}
    (l : list A) (x : A) :
  NoDup l → (∀ y, y ∈ l → P y → y = x) → length (filter P l) ≤ 1.
Proof.
  induction l as [|y l IH]; intros Hnd Hall; simpl; [lia|].
  apply NoDup_cons in Hnd as [Hy Hnd].
  rewrite filter_cons. destruct (decide (P y)) as [Hp|Hp].
  - assert (filter P l = []) as ->; [|simpl; lia].
    destruct (filter P l) as [|z l'] eqn:Hf; [done|].
    assert (z ∈ filter P l) as [Hpz Hz]%list_elem_of_filter
      by (rewrite Hf; set_solver).
    exfalso. apply Hy.
    rewrite (Hall y) by (done || set_solver).
    rewrite <-(Hall z); [done|set_solver|done].
  - apply IH; [done|]. intros z Hz. apply Hall. set_solver.
Qed.

Lemma consistent_arc_invariant s arc : consistent s → arc_invariant s arc.
Proof.
  intros [Hreg [Heb Hbe Hnd]].
  assert (∀ n, in_bucket n arc s →
               ∃ t, endpoint_dic_ s !! arc = Some (n, t)) as Hsrc.
  { intros n (b & t & Hb & Hin). eauto. }
  split_and!; [apply (arcs_indexed s Hreg)| |done|].
  - split.
    + intros [[f t] Hft]. exists f. split.
      * destruct (Heb _ _ _ Hft) as (b & Hb & Hin). by exists b, t.
      * intros n' [t' Hn']%Hsrc. congruence.
    + intros (n & [t Hn]%Hsrc & _). eauto.
  - intros n b Hb.
    destruct (endpoint_dic_ s !! arc) as [[f t]|] eqn:Hft.
    + apply (filter_at_most_one _ _ (t, arc)); [eauto|].
      intros [t' a'] Hin Ha. simpl in Ha. subst a'.
      specialize (Hbe _ _ _ _ Hb Hin). congruence.
    + assert (filter (λ e : N * N, e.2 = arc) b = []) as ->; [|simpl; lia].
      destruct (filter _ b) as [|[t' a'] l'] eqn:Hf; [done|].
      assert ((t', a') ∈ filter (λ e : N * N, e.2 = arc) b)
        as [Ha Hin]%list_elem_of_filter by (rewrite Hf; set_solver).
      simpl in Ha. subst a'. specialize (Hbe _ _ _ _ Hb Hin). congruence.
Qed.

(** C1, as the code has it.  After a sequence of successful calls from
    the empty graph in which every [add_arc] is given an arc that is not
    in the arc list and every [add_node] is given a node whose bucket is
    missing or empty, every arc is in the arc list iff it is in the
    endpoint index iff it is in exactly one bucket, which is the bucket
    of its indexed source. *)
Theorem arc_structures_agree ops s :
  run ops empty_graph = Some s →
  each_step disciplined ops empty_graph = true →
  ∀ arc, arc_invariant s arc.
Proof.
  intros Hrun Hdisc arc. apply consistent_arc_invariant.
  by apply (run_consistent ops empty_graph s consistent_empty).
Qed.

Lemma arc_structures_agree_witness : arc_invariant chain_before_removal 11%N.
Proof.
  apply (arc_structures_agree (take 5 chain_ops) chain_before_removal);
    vm_compute; reflexivity.
Defined.

(** C1 as stated fails: registering a node a second time empties its
    bucket, so the arc that leaves it stays in the arc list and in the
    endpoint index but is in no bucket. *)
Lemma arc_structures_disagree :
  run [Add_node 1; Add_arc 7 1 2; Add_node 1]%N empty_graph =
    Some (mk_adjacency_list [1; 1]%N [7]%N {[ 7%N := (1, 2)%N ]}
            {[ 1%N := [] ]}) ∧
  ¬ arc_invariant
      (mk_adjacency_list [1; 1]%N [7]%N {[ 7%N := (1, 2)%N ]}
         {[ 1%N := [] ]}) 7%N.
Proof.
  split; [vm_compute; reflexivity|].
  intros (_ & [Hone _] & _). simpl in Hone.
  destruct Hone as (n & (b & t & Hb & Hin) & _).
  { rewrite lookup_singleton_eq. by eexists. }
  simpl in Hb. apply lookup_singleton_Some in Hb as [_ <-].
  by apply elem_of_nil in Hin.
Qed.

(** The same claim fails in a second way: an arc added twice under two
    sources sits in two buckets. *)
Lemma arc_in_two_buckets :
  run [Add_arc 7 1 2; Add_arc 7 3 4]%N empty_graph =
    Some (mk_adjacency_list [] [7; 7]%N {[ 7%N := (3, 4)%N ]}
            {[ 1%N := [(2, 7)%N]; 3%N := [(4, 7)%N] ]}) ∧
  in_bucket 1%N 7%N
    (mk_adjacency_list [] [7; 7]%N {[ 7%N := (3, 4)%N ]}
       {[ 1%N := [(2, 7)%N]; 3%N := [(4, 7)%N] ]}) ∧
  in_bucket 3%N 7%N
    (mk_adjacency_list [] [7; 7]%N {[ 7%N := (3, 4)%N ]}
       {[ 1%N := [(2, 7)%N]; 3%N := [(4, 7)%N] ]}).
Proof.
  split_and!; [vm_compute; reflexivity| |].
  - exists [(2, 7)%N], 2%N. split; [done|]. apply list_elem_of_singleton. done.
  - exists [(4, 7)%N], 4%N. split; [done|]. apply list_elem_of_singleton. done.
Qed.

(** ** [add_arc] from a node without a bucket *)

(** C2, as the code has it.  When [from] has no bucket and no allocation
    fails, [add_arc] returns normally: [adjacency_[from]] creates the
    bucket, which then holds [(to, arc)]; the node list is left alone. *)
Theorem add_arc_creates_bucket arc from to s :
  adjacency_ s !! from = None →
  ∃ s', add_arc no_fault arc from to s = Return arc s' ∧
        adjacency_ s' !! from = Some [(to, arc)] ∧
        all_node s' = all_node s.
Proof.
  intros Hnone. rewrite add_arc_no_fault. eexists. split; [done|].
  simpl. unfold bucket_of. rewrite Hnone, lookup_insert_eq. done.
Qed.

Lemma add_arc_creates_bucket_witness :
  ∃ s', add_arc no_fault 7%N 1%N 2%N empty_graph = Return 7%N s' ∧
        adjacency_ s' !! 1%N = Some [(2, 7)%N] ∧
        all_node s' = all_node empty_graph.
Proof. apply (add_arc_creates_bucket 7%N 1%N 2%N empty_graph). reflexivity. Defined.

(** C2 as stated fails: on the empty graph node [1] has no bucket, and
    [add_arc] from it returns normally instead of failing. *)
Lemma add_arc_unregistered_from_succeeds :
  adjacency_ empty_graph !! 1%N = None ∧
  add_arc no_fault 7%N 1%N 2%N empty_graph =
    Return 7%N
      (mk_adjacency_list [] [7]%N {[ 7%N := (1, 2)%N ]}
         {[ 1%N := [(2, 7)%N] ]}).
Proof. split; vm_compute; reflexivity. Qed.

(** ** Registering and then removing a node *)

Lemma app_cons_snoc_last {A} (l1 l2 l : list A) (x : A) :
  l1 ++ x :: l2 = l ++ [x] → x ∉ l2 → l2 = [] ∧ l1 = l.
Proof.
  intros Heq Hn. destruct l2 as [|y l2 _] using rev_ind.
  - split; [done|]. by apply app_inj_tail in Heq as [? _].
  - exfalso. apply Hn.
    change (l1 ++ x :: l2 ++ [y]) with (l1 ++ (x :: l2) ++ [y]) in Heq.
    rewrite (assoc_L (++)) in Heq. apply app_inj_tail in Heq as [_ ->].
    set_solver.
Qed.

(** C4, as the code has it.  On a consistent graph in which [n] is not in
    the node list and has no entry in its bucket, [add_node(n)] followed
    by [remove_node(n)] returns [true], and afterwards [all_node()] is
    what it was before and does not contain [n]. *)
Theorem add_then_remove_node n s :
  consistent s → n ∉ all_node s → bucket_of n s = [] →
  ∃ s1 s2, add_node no_fault n s = Return n s1 ∧
           remove_node no_fault n s1 = Return true s2 ∧
           (n ∉ all_node s2) ∧ all_node s2 = all_node s.
Proof.
  intros Hs Hnew Hempty. rewrite add_node_no_fault.
  pose proof (consistent_add_node s n Hs Hempty) as Hs1.
  destruct (remove_node_registered n _ Hs1)
    as (l1 & l2 & s2 & Hr & Hl & Hn2 & Hl' & _); [simpl; set_solver|].
  simpl in Hl. symmetry in Hl.
  apply app_cons_snoc_last in Hl as [-> ->]; [|done].
  eexists _, s2. split_and!; [done|done| |];
    unfold all_node in *; rewrite Hl', app_nil_r; done.
Qed.

Lemma add_then_remove_node_witness :
  ∃ s1 s2, add_node no_fault 5%N chain_graph = Return 5%N s1 ∧
           remove_node no_fault 5%N s1 = Return true s2 ∧
           (5%N ∉ all_node s2) ∧ all_node s2 = all_node chain_graph.
Proof.
  apply (add_then_remove_node 5%N chain_graph).
  - apply (run_consistent chain_ops empty_graph _ consistent_empty);
      vm_compute; reflexivity.
  - vm_compute. intros H. repeat (apply elem_of_cons in H as [H|H]; [done|]).
    by apply elem_of_nil in H.
  - vm_compute. reflexivity.
Defined.

(** C4 as stated fails in both of its parts.  With [1] already in the
    node list, the pair of calls leaves the older entry behind; with [1]
    the source of an arc, [add_node(1)] empties its bucket and
    [remove_node(1)] then returns [false]. *)
Lemma add_then_remove_node_fails :
  (run [Add_node 1]%N empty_graph =
     Some (mk_adjacency_list [1]%N [] ∅ {[ 1%N := [] ]}) ∧
   add_node no_fault 1%N
     (mk_adjacency_list [1]%N [] ∅ {[ 1%N := [] ]}) =
     Return 1%N (mk_adjacency_list [1; 1]%N [] ∅ {[ 1%N := [] ]}) ∧
   remove_node no_fault 1%N
     (mk_adjacency_list [1; 1]%N [] ∅ {[ 1%N := [] ]}) =
     Return true (mk_adjacency_list [1]%N [] ∅ ∅) ∧
   1%N ∈ all_node (mk_adjacency_list [1]%N [] ∅ ∅)) ∧
  (run [Add_arc 7 1 2]%N empty_graph =
     Some (mk_adjacency_list [] [7]%N {[ 7%N := (1, 2)%N ]}
             {[ 1%N := [(2, 7)%N] ]}) ∧
   add_node no_fault 1%N
     (mk_adjacency_list [] [7]%N {[ 7%N := (1, 2)%N ]}
        {[ 1%N := [(2, 7)%N] ]}) =
     Return 1%N
       (mk_adjacency_list [1]%N [7]%N {[ 7%N := (1, 2)%N ]}
          {[ 1%N := [] ]}) ∧
   remove_node no_fault 1%N
     (mk_adjacency_list [1]%N [7]%N {[ 7%N := (1, 2)%N ]}
        {[ 1%N := [] ]}) =
     Return false
       (mk_adjacency_list [1]%N [7]%N {[ 7%N := (1, 2)%N ]}
          {[ 1%N := [] ]})).
Proof.
  split_and!; try (vm_compute; reflexivity).
  simpl. apply list_elem_of_singleton. done.
Qed.

(** ** The cascade removes every incident arc *)

(** C5, as the code has it.  On a consistent graph, [remove_node(n)] of a
    node in the node list returns [true], and no arc whose indexed source
    or target was [n] is in [all_arc()] afterwards. *)
Theorem remove_node_cascade_complete n s :
  consistent s → n ∈ all_node s →
  ∃ s', remove_node no_fault n s = Return true s' ∧
        ∀ arc, incident n arc s → arc ∉ all_arc s'.
Proof.
  intros Hs Hn.
  destruct (remove_node_registered n s Hs Hn)
    as (l1 & l2 & s' & Hr & _ & _ & _ & _ & Hmem).
  exists s'. split; [done|]. intros arc Hinc [_ Hninc]%Hmem. done.
Qed.

Lemma remove_node_cascade_complete_witness :
  ∃ s', remove_node no_fault 2%N chain_before_removal = Return true s' ∧
        ∀ arc, incident 2%N arc chain_before_removal → arc ∉ all_arc s'.
Proof.
  apply (remove_node_cascade_complete 2%N chain_before_removal).
  - apply (run_consistent (take 5 chain_ops) empty_graph _ consistent_empty);
      vm_compute; reflexivity.
  - vm_compute. apply elem_of_cons. right. apply elem_of_cons. by left.
Defined.

(** C5 as stated fails: after [add_arc(7, 1, 2)] and [add_node(1)] the
    bucket of [1] is empty, the cascade does not find the arc there, and
    [remove_node(1)] restores its backup and returns [false]; arc [7],
    whose indexed source is [1], is still in [all_arc()]. *)
Lemma remove_node_keeps_incident_arc :
  run [Add_arc 7 1 2; Add_node 1]%N empty_graph =
    Some (mk_adjacency_list [1]%N [7]%N {[ 7%N := (1, 2)%N ]}
            {[ 1%N := [] ]}) ∧
  1%N ∈ all_node (mk_adjacency_list [1]%N [7]%N {[ 7%N := (1, 2)%N ]}
                    {[ 1%N := [] ]}) ∧
  incident 1%N 7%N (mk_adjacency_list [1]%N [7]%N {[ 7%N := (1, 2)%N ]}
                      {[ 1%N := [] ]}) ∧
  remove_node no_fault 1%N
    (mk_adjacency_list [1]%N [7]%N {[ 7%N := (1, 2)%N ]} {[ 1%N := [] ]}) =
    Return false
      (mk_adjacency_list [1]%N [7]%N {[ 7%N := (1, 2)%N ]}
         {[ 1%N := [] ]}) ∧
  7%N ∈ all_arc (mk_adjacency_list [1]%N [7]%N {[ 7%N := (1, 2)%N ]}
                   {[ 1%N := [] ]}).
Proof.
  split_and!; try (vm_compute; reflexivity).
  - simpl. apply list_elem_of_singleton. done.
  - exists 1%N, 2%N. split; [done|by left].
  - simpl. apply list_elem_of_singleton. done.
Qed.

(** ** Outcomes of [add_node] and [add_arc] under every fault plan *)

Lemma add_node_outcome φ node s :
  add_node φ node s =
  if φ node_push_back then Raise bad_alloc s
  else if absent (adjacency_ s) node && φ node_bucket then Raise bad_alloc s
  else Return node
         (mk_adjacency_list (stored_node_ s ++ [node]) (stored_arc_ s)
            (endpoint_dic_ s) (<[node:=[]]> (adjacency_ s))).
Proof.
  unfold add_node, mbind, M_bind, try_catch, subscript, allocate, modify,
    mret, M_ret, mbind, M_bind, absent.
  destruct (φ node_push_back); [done|]. simpl.
  destruct (adjacency_ s !! node) as [b|] eqn:Hb; simpl.
  - unfold set_adjacency, set_stored_node, push_back; simpl.
    by rewrite (alter_present_insert _ _ _ b).
  - destruct (φ node_bucket); simpl.
    + unfold set_stored_node; simpl. rewrite pop_back_push_back.
      by destruct s.
    + unfold set_adjacency, set_stored_node, push_back; simpl.
      by rewrite alter_const_insert.
Qed.

Lemma add_arc_outcome φ arc from to s :
  add_arc φ arc from to s =
  if φ arc_push_back then Raise bad_alloc s
  else if absent (endpoint_dic_ s) arc && φ endpoint_insert
  then Raise bad_alloc s
  else if absent (adjacency_ s) from && φ from_bucket
  then Raise bad_alloc (set_endpoint_dic (delete arc) s)
  else if φ bucket_push_back
  then Raise bad_alloc
         (mk_adjacency_list (stored_node_ s) (stored_arc_ s)
            (delete arc (endpoint_dic_ s))
            (if absent (adjacency_ s) from
             then <[from:=[]]> (adjacency_ s) else adjacency_ s))
  else Return arc
         (mk_adjacency_list (stored_node_ s) (stored_arc_ s ++ [arc])
            (<[arc:=(from, to)]> (endpoint_dic_ s))
            (<[from:=bucket_of from s ++ [(to, arc)]]> (adjacency_ s))).
Proof.
  unfold add_arc, mbind, M_bind, try_catch, subscript, allocate, modify,
    mret, M_ret, mbind, M_bind, absent, bucket_of.
  destruct (φ arc_push_back); [done|]. simpl.
  destruct (endpoint_dic_ s !! arc) as [p|] eqn:Hp; simpl;
    [|destruct (φ endpoint_insert); simpl;
      [unfold set_stored_arc; simpl; rewrite pop_back_push_back;
       by destruct s|]];
    (destruct (adjacency_ s !! from) as [b|] eqn:Hb; simpl;
     [|destruct (φ from_bucket); simpl;
       [unfold set_stored_arc, set_endpoint_dic; simpl;
        by rewrite pop_back_push_back, ?delete_insert_eq|]];
     simpl; destruct (φ bucket_push_back); simpl;
     unfold set_stored_arc, set_endpoint_dic, set_adjacency, push_back,
       pop_back; simpl;
     rewrite ?removelast_last, ?delete_insert_eq, ?insert_insert_eq;
     first [ done
           | by rewrite (alter_present_insert _ _ _ b)
           | by rewrite alter_insert_eq ]).
Qed.

(** [add_node] keeps the strong guarantee. *)
Lemma add_node_failure_atomic φ node s e s' :
  add_node φ node s = Raise e s' → s' = s.
Proof.
  rewrite add_node_outcome.
  repeat case_match; intros [=]; done.
Qed.

(** [add_arc] keeps it for an arc that is not indexed and a source that
    has its bucket. *)
Lemma add_arc_failure_atomic φ arc from to s e s' :
  endpoint_dic_ s !! arc = None → is_Some (adjacency_ s !! from) →
  add_arc φ arc from to s = Raise e s' → s' = s.
Proof.
  intros Harc [b Hb]. rewrite add_arc_outcome. unfold absent.
  rewrite Hb, Harc. simpl. repeat case_match; intros [= <- <-]; try done.
  rewrite delete_id by done. by destruct s.
Qed.

(** [remove_node] returning [false] has restored everything. *)
Lemma remove_node_false_unchanged φ node s s' :
  remove_node φ node s = Return false s' → s' = s.
Proof.
  destruct (remove_node_cases φ node s)
    as [[_ ->]|[(_ & _ & ->)|[(_ & _ & _ & ->)|(?&?&?&_&_&_&_& ->)]]];
    by intros [=].
Qed.

(** An allocation failure in the backup copies of [remove_node], which
    is [noexcept], ends the program. *)
Lemma remove_node_backup_failure node s :
  node ∈ stored_node_ s →
  remove_node (fail_at backup_copy) node s = Terminate.
Proof.
  intros Hin.
  destruct (remove_node_cases (fail_at backup_copy) node s)
    as [[? _]|[(_ & _ & ->)|[(_ & [=] & _)|(?&?&?&_&_& [=] &_)]]]; done.
Qed.

(** ** Failure atomicity of [add_arc] *)

(** C3 evaluated on the code.  The rollback of [add_arc] misses two
    effects when [adjacency_[from].push_back] throws: the bucket that
    [adjacency_[from]] has just created stays behind, and the endpoint
    entry of an arc that was already indexed is erased instead of being
    put back.  In both runs the state after the exception differs from
    the state before the call. *)
Theorem add_arc_rollback_incomplete :
  (add_arc (fail_at bucket_push_back) 7%N 1%N 2%N empty_graph =
     Raise bad_alloc (mk_adjacency_list [] [] ∅ {[ 1%N := [] ]}) ∧
   mk_adjacency_list [] [] ∅ {[ 1%N := [] ]} ≠ empty_graph) ∧
  (run [Add_node 1; Add_node 2; Add_arc 7 1 2]%N empty_graph =
     Some (mk_adjacency_list [1; 2]%N [7]%N {[ 7%N := (1, 2)%N ]}
             {[ 1%N := [(2, 7)%N]; 2%N := [] ]}) ∧
   add_arc (fail_at bucket_push_back) 7%N 1%N 2%N
     (mk_adjacency_list [1; 2]%N [7]%N {[ 7%N := (1, 2)%N ]}
        {[ 1%N := [(2, 7)%N]; 2%N := [] ]}) =
     Raise bad_alloc
       (mk_adjacency_list [1; 2]%N [7]%N ∅
          {[ 1%N := [(2, 7)%N]; 2%N := [] ]}) ∧
   mk_adjacency_list [1; 2]%N [7]%N ∅ {[ 1%N := [(2, 7)%N]; 2%N := [] ]} ≠
   mk_adjacency_list [1; 2]%N [7]%N {[ 7%N := (1, 2)%N ]}
     {[ 1%N := [(2, 7)%N]; 2%N := [] ]}).
Proof.
  split_and!; try (vm_compute; reflexivity).
  - intros Heq. apply (f_equal (λ s, adjacency_ s !! 1%N)) in Heq.
    vm_compute in Heq. discriminate.
  - intros Heq. apply (f_equal (λ s, endpoint_dic_ s !! 7%N)) in Heq.
    vm_compute in Heq. discriminate.
Qed.

(** ** Endpoints of the registered arcs *)

(** C6, as the code has it.  After a sequence of successful calls from
    the empty graph in which every [add_arc] is given an arc that is not
    in the arc list and two non-null nodes, every arc of [all_arc()] has a
    non-null source and target, [is_connect] classifies its source as the
    source, and classifies its target as the target unless the arc is a
    self-loop, whose only node is classified as the source. *)
Theorem endpoints_classified ops s :
  run ops empty_graph = Some s →
  each_step takes_fresh_arc ops empty_graph = true →
  each_step proper_endpoints ops empty_graph = true →
  ∀ arc, arc ∈ all_arc s →
    source arc s ≠ nullptr ∧ target arc s ≠ nullptr ∧
    is_connect (source arc s) arc s = 1%Z ∧
    is_connect (target arc s) arc s =
      (if decide (source arc s = target arc s) then 1 else -1)%Z.
Proof.
  intros Hrun Hfresh Hproper arc Harc.
  pose proof (run_arcs_registered _ _ _ arcs_registered_empty Hfresh Hrun)
    as Hreg.
  assert (endpoints_nonnull empty_graph) as Hnn0.
  { intros a f t. simpl. by rewrite lookup_empty. }
  pose proof (run_endpoints_nonnull _ _ _ Hnn0 Hproper Hrun) as Hnn.
  apply (arcs_indexed s Hreg) in Harc as [[f t] Hft].
  destruct (Hnn _ _ _ Hft) as [Hf Ht].
  unfold source, target, is_connect. rewrite Hft.
  split_and!; [done|done| |].
  - by rewrite decide_True.
  - destruct (decide (f = t)) as [->|Hne]; [done|].
    by rewrite decide_True.
Qed.

Lemma endpoints_classified_witness :
  source 11%N chain_before_removal ≠ nullptr ∧
  target 11%N chain_before_removal ≠ nullptr ∧
  is_connect (source 11%N chain_before_removal) 11%N chain_before_removal
    = 1%Z ∧
  is_connect (target 11%N chain_before_removal) 11%N chain_before_removal
    = (if decide (source 11%N chain_before_removal =
                  target 11%N chain_before_removal) then 1 else -1)%Z.
Proof.
  apply (endpoints_classified (take 5 chain_ops) chain_before_removal);
    try (vm_compute; reflexivity).
  vm_compute. apply elem_of_cons. by left.
Defined.

(** C6 as stated fails on a self-loop: its target is classified as the
    source, because [is_connect] tests the source first. *)
Lemma self_loop_target_is_source :
  run [Add_node 1; Add_arc 7 1 1]%N empty_graph =
    Some (mk_adjacency_list [1]%N [7]%N {[ 7%N := (1, 1)%N ]}
            {[ 1%N := [(1, 7)%N] ]}) ∧
  7%N ∈ all_arc (mk_adjacency_list [1]%N [7]%N {[ 7%N := (1, 1)%N ]}
                   {[ 1%N := [(1, 7)%N] ]}) ∧
  is_connect
    (target 7%N (mk_adjacency_list [1]%N [7]%N {[ 7%N := (1, 1)%N ]}
                   {[ 1%N := [(1, 7)%N] ]}))
    7%N (mk_adjacency_list [1]%N [7]%N {[ 7%N := (1, 1)%N ]}
           {[ 1%N := [(1, 7)%N] ]}) = 1%Z.
Proof.
  split_and!; try (vm_compute; reflexivity).
  simpl. apply list_elem_of_singleton. done.
Qed.

(** It also fails for an arc added with null nodes, and for an arc added
    twice and removed once, which stays in [all_arc()] without endpoints. *)
Lemma null_endpoints_registered :
  run [Add_arc 7 0 0]%N empty_graph =
    Some (mk_adjacency_list [] [7]%N {[ 7%N := (0, 0)%N ]}
            {[ 0%N := [(0, 7)%N] ]}) ∧
  source 7%N (mk_adjacency_list [] [7]%N {[ 7%N := (0, 0)%N ]}
                {[ 0%N := [(0, 7)%N] ]}) = nullptr.
Proof. split; vm_compute; reflexivity. Qed.

Lemma duplicate_arc_loses_endpoints :
  run [Add_node 1; Add_arc 7 1 2; Add_arc 7 1 2; Remove_arc 7]%N
      empty_graph =
    Some (mk_adjacency_list [1]%N [7]%N ∅ {[ 1%N := [(2, 7)%N] ]}) ∧
  source 7%N (mk_adjacency_list [1]%N [7]%N ∅ {[ 1%N := [(2, 7)%N] ]})
    = nullptr.
Proof. split; vm_compute; reflexivity. Qed.

(** ** The private removal primitive is check-then-act *)

(** C7.  The primitive either fails a lookup, returns [false] and leaves
    the very state it was given, or finds the arc at its last position in
    the arc list and the entry [(to, arc)] at its first position in the
    bucket of [from], returns [true], and leaves the state obtained by
    erasing the bucket entry, then the endpoint entry, then the arc-list
    entry. *)
Theorem remove_arc_private_check_then_act arc from to s :
  (¬ lookups_succeed arc from to s ∧
   remove_arc_private arc from to s = (false, s)) ∨
  (lookups_succeed arc from to s ∧
   ∃ l1 l2 b1 b2,
     stored_arc_ s = l1 ++ arc :: l2 ∧ (arc ∉ l2) ∧
     adjacency_ s !! from = Some (b1 ++ (to, arc) :: b2) ∧
     ((to, arc) ∉ b1) ∧
     remove_arc_private arc from to s =
       (true,
        erase_arc_entry (length l1)
          (erase_endpoint_entry arc
             (erase_adjacency_entry from (b1 ++ (to, arc) :: b2)
                (length b1) s))) ∧
     remove_arc_private arc from to s =
       (true,
        mk_adjacency_list (stored_node_ s) (l1 ++ l2)
          (delete arc (endpoint_dic_ s))
          (<[from:=b1 ++ b2]> (adjacency_ s)))).
Proof.
  destruct (lookups_succeed_dec arc from to s) as [Hok|Hfail].
  - right. split; [done|]. by apply remove_arc_private_true.
  - left. split; [done|]. by apply remove_arc_private_false.
Qed.

(** ** Which of several equal entries is removed *)



(** Two such removals, evaluated: the first of the equal entries stays. *)
Example last_of_equal_entries_removed :
  remove_node no_fault 1%N
    (mk_adjacency_list [1; 2; 1]%N [] ∅ {[ 1%N := [] ]}) =
    Return true (mk_adjacency_list [1; 2]%N [] ∅ ∅) ∧
  remove_arc_private 7%N 1%N 2%N
    (mk_adjacency_list [] [7; 8; 7]%N {[ 7%N := (1, 2)%N ]}
       {[ 1%N := [(2, 7)%N] ]}) =
    (true, mk_adjacency_list [] [7; 8]%N ∅ {[ 1%N := [] ]}).
Proof. split; vm_compute; reflexivity. Qed.


(** ** [child_nodes] *)

(** C9.  On a node without a bucket [child_nodes] throws
    [std::out_of_range] and leaves the graph as it is; on a node with a
    bucket it returns the targets of the bucket in the order of the
    bucket, which is the order of insertion: [add_arc] appends its target
    at the end, and an arc removal takes one entry out and keeps the
    others in place. *)
Theorem child_nodes_defined parent s :
  (adjacency_ s !! parent = None →
   child_nodes parent s = Raise out_of_range s) ∧
  (∀ b, adjacency_ s !! parent = Some b →
        child_nodes parent s = Return (b.*1) s) ∧
  (∀ arc to,
     ∃ s', add_arc no_fault arc parent to s = Return arc s' ∧
           child_nodes parent s' =
             Return ((bucket_of parent s).*1 ++ [to]) s') ∧
  (∀ arc to s',
     remove_arc_private arc parent to s = (true, s') →
     ∃ b1 b2 : list (N * N),
       child_nodes parent s = Return (b1.*1 ++ to :: b2.*1) s ∧
       child_nodes parent s' = Return (b1.*1 ++ b2.*1) s').
Proof.
  unfold child_nodes. split_and!.
  - by intros ->.
  - by intros b ->.
  - intros arc to. rewrite add_arc_no_fault. eexists. split; [done|].
    simpl. by rewrite lookup_insert_eq, fmap_app.
  - intros arc to s' Hr.
    destruct (remove_arc_private_cases arc parent to s)
      as [[_ Hf]|(l1 & l2 & b1 & b2 & _ & _ & Hb & _ & Ht)];
      rewrite Hr in *; [done|].
    injection Ht as ->. exists b1, b2. rewrite Hb. simpl.
    by rewrite lookup_insert_eq, !fmap_app.
Qed.

Lemma child_nodes_defined_witness :
  child_nodes 9%N chain_before_removal =
    Raise out_of_range chain_before_removal ∧
  child_nodes 1%N chain_before_removal =
    Return [2%N] chain_before_removal.
Proof.
  split.
  - apply (proj1 (child_nodes_defined 9%N chain_before_removal)).
    vm_compute. reflexivity.
  - apply (proj1 (proj2 (child_nodes_defined 1%N chain_before_removal))
             [(2, 11)%N]).
    vm_compute. reflexivity.
Defined.

(** ** The arc operations and the node list *)

(** C10.  [add_arc], under every fault plan and whether it returns or
    throws, and both public [remove_arc] overloads, whatever they return,
    leave [all_node()] as it was. *)
Theorem arc_operations_keep_node_list φ io arc from to s :
  all_node <$> final_state (add_arc φ arc from to s) = Some (all_node s) ∧
  all_node (remove_arc arc s).2 = all_node s ∧
  all_node (remove_arc_between io from to s).2 = all_node s.
Proof.
  split_and!.
  - rewrite add_arc_outcome. repeat case_match; done.
  - apply remove_arc_stored_node.
  - apply remove_arc_between_stored_node.
Qed.

(** * Further properties of the member functions *)

(** ** Walks of the endpoint dictionary *)

Lemma walk_lookup io (m : gmap N (N * N)) a p :
  (a, p) ∈ walk io m ↔ m !! a = Some p.
Proof. by rewrite (walk_perm io m), elem_of_map_to_list. Qed.

Lemma find_joins_Some io from to s e :
  List.find (joins from to) (walk io (endpoint_dic_ s)) = Some e →
  endpoint_dic_ s !! e.1 = Some (from, to).
Proof.
  intros [Hin Hj]%find_some. apply list_elem_of_In in Hin.
  unfold joins in Hj. apply bool_decide_eq_true in Hj as [Hf Ht].
  destruct e as [a [f t]]; simpl in *; subst. by apply walk_lookup in Hin.
Qed.

Lemma find_joins_None io from to s a :
  List.find (joins from to) (walk io (endpoint_dic_ s)) = None →
  endpoint_dic_ s !! a ≠ Some (from, to).
Proof.
  intros Hnone Ha. apply (walk_lookup io) in Ha.
  apply list_elem_of_In in Ha.
  pose proof (find_none _ _ Hnone _ Ha) as Hj. unfold joins in Hj.
  by apply bool_decide_eq_false in Hj; simpl in Hj; apply Hj.
Qed.

Lemma parent_nodes_filter io child s :
  parent_nodes io child s =
  (λ e : N * (N * N), e.2.1) <$>
    filter (λ e : N * (N * N), e.2.2 = child) (walk io (endpoint_dic_ s)).
Proof.
  unfold parent_nodes.
  enough (∀ l acc,
    foldl (λ nodes (endpoint : N * (N * N)),
             if decide (endpoint.2.2 = child)
             then push_back endpoint.2.1 nodes else nodes) acc l =
    acc ++ ((λ e : N * (N * N), e.2.1) <$>
              filter (λ e : N * (N * N), e.2.2 = child) l)) as Hgen
    by apply (Hgen _ []).
  induction l as [|e l IH]; intros acc; simpl; [by rewrite app_nil_r|].
  rewrite IH, filter_cons. destruct (decide (e.2.2 = child)); [|done].
  unfold push_back. by rewrite <-(assoc_L (++)).
Qed.

Lemma elem_of_parent_nodes io child s n :
  n ∈ parent_nodes io child s ↔
  ∃ a, endpoint_dic_ s !! a = Some (n, child).
Proof.
  rewrite parent_nodes_filter, list_elem_of_fmap. split.
  - intros ([a [f t]] & -> & [Ht Hin]%list_elem_of_filter).
    simpl in *. subst. exists a. by apply walk_lookup in Hin.
  - intros [a Ha]. exists (a, (n, child)). split; [done|].
    apply list_elem_of_filter. split; [done|]. by apply walk_lookup.
Qed.

(** ** [is_adjacent], [parent_nodes], [is_connect] *)

Lemma is_adjacent_joins io from to s :
  (∃ a, endpoint_dic_ s !! a = Some (from, to)) →
  endpoint_dic_ s !! is_adjacent io from to s = Some (from, to).
Proof.
  intros [a Ha]. unfold is_adjacent.
  destruct (List.find _ _) as [e|] eqn:Hfind.
  - by apply find_joins_Some in Hfind.
  - by destruct (find_joins_None _ _ _ _ a Hfind).
Qed.

(** X1.  When some arc is indexed with the endpoints [(from, to)],
    [is_adjacent] returns an arc indexed with these endpoints; when none
    is, it returns the null pointer; and when exactly one is, it returns
    that arc whatever the order in which the dictionary is walked. *)
Theorem is_adjacent_finds_joining_arc io from to s :
  ((∃ a, endpoint_dic_ s !! a = Some (from, to)) →
   endpoint_dic_ s !! is_adjacent io from to s = Some (from, to)) ∧
  ((∀ a, endpoint_dic_ s !! a ≠ Some (from, to)) →
   is_adjacent io from to s = nullptr) ∧
  (∀ a, endpoint_dic_ s !! a = Some (from, to) →
        (∀ a', endpoint_dic_ s !! a' = Some (from, to) → a' = a) →
        is_adjacent io from to s = a).
Proof.
  split_and!; [apply is_adjacent_joins| |].
  - intros Hnone. unfold is_adjacent.
    destruct (List.find _ _) as [e|] eqn:Hfind; [|done].
    apply find_joins_Some in Hfind. by destruct (Hnone e.1).
  - intros a Ha Huniq. apply Huniq, is_adjacent_joins. eauto.
Qed.

Lemma is_adjacent_finds_joining_arc_witness :
  endpoint_dic_ chain_before_removal
    !! is_adjacent default_order 1%N 2%N chain_before_removal =
    Some (1, 2)%N ∧
  is_adjacent default_order 1%N 3%N chain_before_removal = nullptr.
Proof.
  split.
  - apply (proj1 (is_adjacent_finds_joining_arc default_order 1%N 2%N
                    chain_before_removal)).
    exists 11%N. vm_compute. reflexivity.
  - apply (proj1 (proj2 (is_adjacent_finds_joining_arc default_order 1%N 3%N
                           chain_before_removal))).
    intros a Ha. unfold chain_before_removal in Ha; simpl in Ha.
    apply lookup_insert_Some in Ha as [[_ [=]]|[_ Ha]].
    apply lookup_singleton_Some in Ha as [_ [=]].
Defined.

(** X2.  [parent_nodes(child)] holds exactly the sources of the indexed
    arcs whose target is [child]; two walks of the dictionary give the
    same nodes up to their order. *)
Theorem parent_nodes_sources io io' child s :
  (∀ n, n ∈ parent_nodes io child s ↔
        ∃ a, endpoint_dic_ s !! a = Some (n, child)) ∧
  parent_nodes io child s ≡ₚ parent_nodes io' child s.
Proof.
  split; [intros n; apply elem_of_parent_nodes|].
  rewrite !parent_nodes_filter.
  by rewrite (walk_perm io), (walk_perm io').
Qed.

(** X3.  On a consistent graph the two directions of lookup agree: [n]
    is among [parent_nodes(child)] iff [child_nodes(n)] returns a list
    that holds [child]; and the arc that [is_adjacent(n, child)] returns,
    when one joins them, has its entry in the bucket of [n]. *)
Theorem adjacency_endpoint_symmetry io n child s :
  consistent s →
  (n ∈ parent_nodes io child s ↔
   ∃ children, child_nodes n s = Return children s ∧ child ∈ children) ∧
  (n ∈ parent_nodes io child s →
   in_bucket n (is_adjacent io n child s) s).
Proof.
  intros [Hreg [Heb Hbe Hnd]]. rewrite elem_of_parent_nodes.
  unfold child_nodes. split; [split|].
  - intros [a Ha]. destruct (Heb _ _ _ Ha) as (b & -> & Hin).
    eexists. split; [done|]. apply list_elem_of_fmap. by exists (child, a).
  - intros (children & Hc & Hin).
    destruct (adjacency_ s !! n) as [b|] eqn:Hb; [|done].
    injection Hc as <-.
    apply list_elem_of_fmap in Hin as ([t a] & -> & Hin). eauto.
  - intros Hex. apply (is_adjacent_joins io) in Hex.
    destruct (Heb _ _ _ Hex) as (b & Hb & Hin). by exists b, child.
Qed.

Lemma adjacency_endpoint_symmetry_witness :
  (2%N ∈ parent_nodes default_order 3%N chain_before_removal ↔
   ∃ children,
     child_nodes 2%N chain_before_removal =
       Return children chain_before_removal ∧ 3%N ∈ children) ∧
  (2%N ∈ parent_nodes default_order 3%N chain_before_removal →
   in_bucket 2%N (is_adjacent default_order 2%N 3%N chain_before_removal)
     chain_before_removal).
Proof.
  apply (adjacency_endpoint_symmetry default_order 2%N 3%N
           chain_before_removal).
  apply (run_consistent (take 5 chain_ops) empty_graph _ consistent_empty);
    vm_compute; reflexivity.
Defined.

(** X4.  [is_connect] answers [1] exactly for the indexed source of an
    indexed arc, [-1] exactly for its indexed target when that is not
    also its source, and [0] in every other case. *)
Theorem is_connect_classifies node arc s :
  (is_connect node arc s = 1%Z ↔
   is_Some (endpoint_dic_ s !! arc) ∧ source arc s = node) ∧
  (is_connect node arc s = (-1)%Z ↔
   is_Some (endpoint_dic_ s !! arc) ∧ target arc s = node ∧
   source arc s ≠ node) ∧
  (is_connect node arc s = 0%Z ↔
   endpoint_dic_ s !! arc = None ∨
   (source arc s ≠ node ∧ target arc s ≠ node)).
Proof.
  unfold is_connect, source, target.
  destruct (endpoint_dic_ s !! arc) as [[f t]|].
  - destruct (decide (f = node)) as [Hf|Hf];
      [|destruct (decide (t = node)) as [Ht|Ht]];
      (split_and!; split; try done; try (intros [? ?]; done);
       try (intros (? & ? & ?); done);
       try (intros [?|[? ?]]; done); try (by eauto)).
  - split_and!; split; try done; try (intros [[? ?] _]; done); by left.
Qed.

(** ** [add_node] *)

(** X5.  An exception leaving [add_node] is [std::bad_alloc] and the graph
    is then exactly as it was before the call. *)
Theorem add_node_strong_guarantee φ node s e s' :
  add_node φ node s = Raise e s' → e = bad_alloc ∧ s' = s.
Proof.
  rewrite add_node_outcome. repeat case_match; intros [= <- <-]; done.
Qed.

Lemma add_node_strong_guarantee_witness :
  bad_alloc = bad_alloc ∧ chain_graph = chain_graph.
Proof.
  apply (add_node_strong_guarantee (fail_at node_bucket) 5%N chain_graph).
  vm_compute. reflexivity.
Defined.

(** X6.  When [add_node] returns, it returns its argument; the node is
    the new last entry of [all_node()] and its bucket is empty, so that
    [child_nodes(node)] returns nothing, even if the node had children
    before; the arcs, their endpoints and the other buckets are as
    before. *)
Theorem add_node_registers φ node s v s' :
  add_node φ node s = Return v s' →
  v = node ∧
  all_node s' = all_node s ++ [node] ∧
  child_nodes node s' = Return [] s' ∧
  all_arc s' = all_arc s ∧
  endpoint_dic_ s' = endpoint_dic_ s ∧
  (∀ n, n ≠ node → adjacency_ s' !! n = adjacency_ s !! n).
Proof.
  rewrite add_node_outcome. repeat case_match; intros [= <- <-]; try done.
  unfold child_nodes; simpl. rewrite lookup_insert_eq.
  split_and!; try done. intros n Hn. by rewrite lookup_insert_ne.
Qed.

Lemma add_node_registers_witness :
  1%N = 1%N ∧
  all_node (mk_adjacency_list [1]%N [7]%N {[ 7%N := (1, 2)%N ]}
              {[ 1%N := [] ]}) =
    all_node (mk_adjacency_list [] [7]%N {[ 7%N := (1, 2)%N ]}
                {[ 1%N := [(2, 7)%N] ]}) ++ [1%N] ∧
  child_nodes 1%N
    (mk_adjacency_list [1]%N [7]%N {[ 7%N := (1, 2)%N ]} {[ 1%N := [] ]}) =
    Return []
      (mk_adjacency_list [1]%N [7]%N {[ 7%N := (1, 2)%N ]}
         {[ 1%N := [] ]}) ∧
  all_arc (mk_adjacency_list [1]%N [7]%N {[ 7%N := (1, 2)%N ]}
             {[ 1%N := [] ]}) =
    all_arc (mk_adjacency_list [] [7]%N {[ 7%N := (1, 2)%N ]}
               {[ 1%N := [(2, 7)%N] ]}) ∧
  endpoint_dic_ (mk_adjacency_list [1]%N [7]%N {[ 7%N := (1, 2)%N ]}
                   {[ 1%N := [] ]}) =
    endpoint_dic_ (mk_adjacency_list [] [7]%N {[ 7%N := (1, 2)%N ]}
                     {[ 1%N := [(2, 7)%N] ]}) ∧
  (∀ n, n ≠ 1%N →
     adjacency_ (mk_adjacency_list [1]%N [7]%N {[ 7%N := (1, 2)%N ]}
                   {[ 1%N := [] ]}) !! n =
     adjacency_ (mk_adjacency_list [] [7]%N {[ 7%N := (1, 2)%N ]}
                   {[ 1%N := [(2, 7)%N] ]}) !! n).
Proof.
  apply (add_node_registers no_fault 1%N
           (mk_adjacency_list [] [7]%N {[ 7%N := (1, 2)%N ]}
              {[ 1%N := [(2, 7)%N] ]})).
  vm_compute. reflexivity.
Defined.

(** ** [add_arc] *)

(** X7.  When [add_arc] returns, it returns its argument, and the
    queries see the new arc: it is in [all_arc()], its source is [from]
    and its target [to], [is_connect] classifies [from] as its source
    and, unless the arc is a self-loop, [to] as its target, [from] is
    among [parent_nodes(to)], [to] is the last of [child_nodes(from)],
    and [is_adjacent(from, to)] returns an arc indexed from [from] to
    [to]. *)
Theorem add_arc_then_lookup φ io arc from to s v s' :
  add_arc φ arc from to s = Return v s' →
  v = arc ∧
  arc ∈ all_arc s' ∧
  source arc s' = from ∧ target arc s' = to ∧
  is_connect from arc s' = 1%Z ∧
  (from ≠ to → is_connect to arc s' = (-1)%Z) ∧
  from ∈ parent_nodes io to s' ∧
  child_nodes from s' = Return ((bucket_of from s).*1 ++ [to]) s' ∧
  endpoint_dic_ s' !! is_adjacent io from to s' = Some (from, to).
Proof.
  rewrite add_arc_outcome. repeat case_match; intros [= <- <-]; try done.
  assert (endpoint_dic_
            (mk_adjacency_list (stored_node_ s) (stored_arc_ s ++ [arc])
               (<[arc:=(from, to)]> (endpoint_dic_ s))
               (<[from:=bucket_of from s ++ [(to, arc)]]> (adjacency_ s)))
          !! arc = Some (from, to)) as Harc
    by (simpl; apply lookup_insert_eq).
  unfold source, target, is_connect, child_nodes. rewrite Harc. simpl.
  rewrite lookup_insert_eq, fmap_app, decide_True by done.
  split_and!; try done.
  - unfold all_arc; simpl. set_solver.
  - intros Hne. by rewrite decide_False, decide_True.
  - apply elem_of_parent_nodes. eauto.
  - apply is_adjacent_joins. eauto.
Qed.

Lemma add_arc_then_lookup_witness :
  ∃ s', add_arc no_fault 7%N 1%N 2%N empty_graph = Return 7%N s' ∧
        source 7%N s' = 1%N ∧ target 7%N s' = 2%N ∧
        1%N ∈ parent_nodes default_order 2%N s'.
Proof.
  eexists. split; [vm_compute; reflexivity|].
  pose proof (add_arc_then_lookup no_fault default_order 7%N 1%N 2%N
                empty_graph 7%N _ eq_refl)
    as (_ & _ & Hs & Ht & _ & _ & Hp & _).
  exact (conj Hs (conj Ht Hp)).
Defined.

(** X8.  When [add_arc] returns, the arc is the new last entry of
    [all_arc()]; [all_node()], the endpoints of every other arc and the
    bucket of every node other than [from] are as before. *)
Theorem add_arc_frame φ arc from to s v s' :
  add_arc φ arc from to s = Return v s' →
  all_arc s' = all_arc s ++ [arc] ∧
  all_node s' = all_node s ∧
  (∀ a, a ≠ arc → endpoint_dic_ s' !! a = endpoint_dic_ s !! a) ∧
  (∀ n, n ≠ from → adjacency_ s' !! n = adjacency_ s !! n).
Proof.
  rewrite add_arc_outcome. repeat case_match; intros [= <- <-]; try done.
  simpl. split_and!; try done; intros x Hx; by rewrite lookup_insert_ne.
Qed.

Lemma add_arc_frame_witness :
  ∃ s', add_arc no_fault 13%N 1%N 3%N chain_before_removal = Return 13%N s' ∧
        all_arc s' = all_arc chain_before_removal ++ [13%N] ∧
        all_node s' = all_node chain_before_removal.
Proof.
  eexists. split; [vm_compute; reflexivity|].
  pose proof (add_arc_frame no_fault 13%N 1%N 3%N chain_before_removal
                13%N _ eq_refl) as (Ha & Hn & _).
  exact (conj Ha Hn).
Defined.

(** X9.  What the rollback of [add_arc] does restore.  An exception
    leaving [add_arc] is [std::bad_alloc]; [all_node()], [all_arc()], the
    endpoints of every other arc and the entries of every bucket are as
    before the call; and either the whole graph is as before, or the arc
    is not indexed any more. *)
Theorem add_arc_rollback_restores φ arc from to s e s' :
  add_arc φ arc from to s = Raise e s' →
  e = bad_alloc ∧
  all_node s' = all_node s ∧
  all_arc s' = all_arc s ∧
  (∀ a, a ≠ arc → endpoint_dic_ s' !! a = endpoint_dic_ s !! a) ∧
  (∀ n, bucket_of n s' = bucket_of n s) ∧
  (s' = s ∨ endpoint_dic_ s' !! arc = None).
Proof.
  rewrite add_arc_outcome.
  destruct (φ arc_push_back); [intros [= <- <-]; split_and!; eauto|].
  destruct (absent (endpoint_dic_ s) arc && φ endpoint_insert);
    [intros [= <- <-]; split_and!; eauto|].
  destruct (absent (adjacency_ s) from && φ from_bucket).
  { intros [= <- <-]. simpl. split_and!; try done.
    - intros a Ha. by rewrite lookup_delete_ne.
    - right. apply lookup_delete_eq. }
  destruct (φ bucket_push_back); [|done].
  intros [= <- <-]. simpl. split_and!; try done.
  - intros a Ha. by rewrite lookup_delete_ne.
  - intros n. unfold bucket_of, absent; simpl. case_bool_decide as Hn; [|done].
    destruct (decide (from = n)) as [<-|Hne].
    + by rewrite lookup_insert_eq, Hn.
    + by rewrite lookup_insert_ne.
  - right. apply lookup_delete_eq.
Qed.

Lemma add_arc_rollback_restores_witness :
  ∃ s', add_arc (fail_at bucket_push_back) 7%N 1%N 2%N empty_graph =
          Raise bad_alloc s' ∧
        all_arc s' = all_arc empty_graph ∧
        ∀ n, bucket_of n s' = bucket_of n empty_graph.
Proof.
  eexists. split; [vm_compute; reflexivity|].
  pose proof (add_arc_rollback_restores (fail_at bucket_push_back) 7%N 1%N
                2%N empty_graph bad_alloc _ eq_refl)
    as (_ & _ & Ha & _ & Hb & _).
  exact (conj Ha Hb).
Defined.

(** X10.  For an arc that is not indexed and a source that has its
    bucket, [add_arc] keeps the strong guarantee: after an exception the
    graph is exactly as it was before the call. *)
Theorem add_arc_strong_guarantee φ arc from to s e s' :
  endpoint_dic_ s !! arc = None → is_Some (adjacency_ s !! from) →
  add_arc φ arc from to s = Raise e s' → s' = s.
Proof. apply add_arc_failure_atomic. Qed.

Lemma add_arc_strong_guarantee_witness :
  chain_before_removal = chain_before_removal.
Proof.
  apply (add_arc_strong_guarantee (fail_at bucket_push_back) 13%N 1%N 3%N
           chain_before_removal bad_alloc chain_before_removal).
  - vm_compute. reflexivity.
  - vm_compute. eexists. reflexivity.
  - vm_compute. reflexivity.
Defined.

(** ** The public [remove_arc] overloads *)

Lemma remove_arc_private_false_unchanged arc from to s :
  (remove_arc_private arc from to s).1 = false →
  (remove_arc_private arc from to s).2 = s.
Proof.
  destruct (remove_arc_private_cases arc from to s)
    as [[_ ->]|(?&?&?&?&_&_&_&_& ->)]; done.
Qed.

(** X11.  A removal that finds nothing changes nothing.  [remove_arc(arc)]
    returns [false] for an arc that is not indexed, and
    [remove_arc(from, to)] returns [false] when no indexed arc has these
    endpoints; whenever either overload returns [false], for whatever
    reason, the graph is exactly as it was. *)
Theorem remove_arc_failure_unchanged io arc from to s :
  (endpoint_dic_ s !! arc = None → remove_arc arc s = (false, s)) ∧
  ((remove_arc arc s).1 = false → (remove_arc arc s).2 = s) ∧
  ((∀ a, endpoint_dic_ s !! a ≠ Some (from, to)) →
   remove_arc_between io from to s = (false, s)) ∧
  ((remove_arc_between io from to s).1 = false →
   (remove_arc_between io from to s).2 = s).
Proof.
  unfold remove_arc, remove_arc_between. split_and!.
  - by intros ->.
  - destruct (endpoint_dic_ s !! arc) as [[f t]|]; [|done].
    apply remove_arc_private_false_unchanged.
  - intros Hnone. destruct (List.find _ _) as [e|] eqn:Hfind; [|done].
    apply find_joins_Some in Hfind. by destruct (Hnone e.1).
  - destruct (List.find _ _) as [e|]; [|done].
    apply remove_arc_private_false_unchanged.
Qed.

Lemma remove_arc_failure_unchanged_witness :
  remove_arc 99%N chain_before_removal = (false, chain_before_removal) ∧
  remove_arc_between default_order 3%N 1%N chain_before_removal =
    (false, chain_before_removal).
Proof.
  split.
  - apply (proj1 (remove_arc_failure_unchanged default_order 99%N 3%N 1%N
                    chain_before_removal)).
    vm_compute. reflexivity.
  - apply (proj1 (proj2 (proj2
             (remove_arc_failure_unchanged default_order 99%N 3%N 1%N
                chain_before_removal)))).
    intros a Ha. unfold chain_before_removal in Ha; simpl in Ha.
    apply lookup_insert_Some in Ha as [[_ [=]]|[_ Ha]].
    apply lookup_singleton_Some in Ha as [_ [=]].
Defined.

(** X12.  After [remove_arc(arc)] has returned [true] the arc has no
    endpoints: [source] and [target] return the null pointer and
    [is_connect] returns [0] for every node.  The call takes one entry out
    of [all_arc()] and one child out of the children of the arc's source,
    both without reordering, and leaves [all_node()], the endpoints of
    the other arcs and the other buckets as they were. *)
Theorem remove_arc_then_lookup arc s s' :
  remove_arc arc s = (true, s') →
  source arc s' = nullptr ∧ target arc s' = nullptr ∧
  (∀ n, is_connect n arc s' = 0%Z) ∧
  (∃ l1 l2, all_arc s = l1 ++ arc :: l2 ∧ all_arc s' = l1 ++ l2) ∧
  (∃ c1 c2,
     child_nodes (source arc s) s =
       Return (c1 ++ target arc s :: c2) s ∧
     child_nodes (source arc s) s' = Return (c1 ++ c2) s') ∧
  all_node s' = all_node s ∧
  (∀ a, a ≠ arc → endpoint_dic_ s' !! a = endpoint_dic_ s !! a) ∧
  (∀ n, n ≠ source arc s → adjacency_ s' !! n = adjacency_ s !! n).
Proof.
  unfold remove_arc, source, target, is_connect, child_nodes.
  destruct (endpoint_dic_ s !! arc) as [[f t]|] eqn:Hft; [|done].
  intros Hr.
  destruct (remove_arc_private_cases arc f t s)
    as [[_ Hf]|(l1 & l2 & b1 & b2 & Hl & _ & Hb & _ & Ht)];
    rewrite Hr in *; [done|].
  injection Ht as ->. simpl. rewrite lookup_delete_eq, Hb, lookup_insert_eq.
  split_and!; try done.
  - by exists l1, l2.
  - exists (b1.*1), (b2.*1). by rewrite !fmap_app.
  - intros a Ha. by rewrite lookup_delete_ne.
  - intros n Hn. by rewrite lookup_insert_ne.
Qed.

Lemma remove_arc_then_lookup_witness :
  ∃ s', remove_arc 11%N chain_before_removal = (true, s') ∧
        source 11%N s' = nullptr ∧ target 11%N s' = nullptr.
Proof.
  eexists. split; [vm_compute; reflexivity|].
  pose proof (remove_arc_then_lookup 11%N chain_before_removal _ eq_refl)
    as (Hs & Ht & _).
  exact (conj Hs Ht).
Defined.

(** X13.  When some indexed arc joins [from] to [to],
    [remove_arc(from, to)] does what [remove_arc] does on the arc that
    [is_adjacent(from, to)] returns, for the same walk of the
    dictionary. *)
Theorem remove_arc_between_is_adjacent io from to s :
  (∃ a, endpoint_dic_ s !! a = Some (from, to)) →
  remove_arc_between io from to s =
  remove_arc (is_adjacent io from to s) s.
Proof.
  intros [a Ha]. unfold remove_arc_between, is_adjacent, remove_arc.
  destruct (List.find _ _) as [e|] eqn:Hfind.
  - apply find_joins_Some in Hfind. by rewrite Hfind.
  - by destruct (find_joins_None _ _ _ _ a Hfind).
Qed.

Lemma remove_arc_between_is_adjacent_witness :
  remove_arc_between default_order 1%N 2%N chain_before_removal =
  remove_arc (is_adjacent default_order 1%N 2%N chain_before_removal)
    chain_before_removal.
Proof.
  apply (remove_arc_between_is_adjacent default_order 1%N 2%N
           chain_before_removal).
  exists 11%N. vm_compute. reflexivity.
Defined.

(** X14.  On a consistent graph [remove_arc(arc)] returns [true] exactly
    for the arcs of [all_arc()]; it then takes that arc, and no other,
    out of [all_arc()], and leaves a consistent graph. *)
Theorem remove_arc_consistent_graph arc s :
  consistent s →
  (arc ∈ all_arc s →
   ∃ s', remove_arc arc s = (true, s') ∧ consistent s' ∧
         ∀ a, a ∈ all_arc s' ↔ a ∈ all_arc s ∧ a ≠ arc) ∧
  (arc ∉ all_arc s → remove_arc arc s = (false, s)).
Proof.
  intros Hs. split.
  - intros Harc.
    destruct (remove_arc_registered arc s Hs Harc) as (s' & ? & ? & ? & _).
    by exists s'.
  - intros Hn. unfold remove_arc.
    assert (endpoint_dic_ s !! arc = None) as ->; [|done].
    apply eq_None_not_Some. by rewrite <-(arcs_indexed s (proj1 Hs)).
Qed.

Lemma remove_arc_consistent_graph_witness :
  ∃ s', remove_arc 12%N chain_before_removal = (true, s') ∧ consistent s' ∧
        ∀ a, a ∈ all_arc s' ↔ a ∈ all_arc chain_before_removal ∧ a ≠ 12%N.
Proof.
  apply (remove_arc_consistent_graph 12%N chain_before_removal).
  - apply (run_consistent (take 5 chain_ops) empty_graph _ consistent_empty);
      vm_compute; reflexivity.
  - vm_compute. apply elem_of_cons. right. apply elem_of_cons. by left.
Defined.

(** X15.  On a consistent graph, when some arc joins [from] to [to],
    [remove_arc(from, to)] returns [true], takes exactly one such arc out
    of [all_arc()], and leaves a consistent graph. *)
Theorem remove_arc_between_consistent_graph io from to s :
  consistent s →
  (∃ a, endpoint_dic_ s !! a = Some (from, to)) →
  ∃ a s', endpoint_dic_ s !! a = Some (from, to) ∧
          remove_arc_between io from to s = (true, s') ∧ consistent s' ∧
          ∀ x, x ∈ all_arc s' ↔ x ∈ all_arc s ∧ x ≠ a.
Proof.
  intros Hs [a Ha]. unfold remove_arc_between.
  destruct (List.find _ _) as [e|] eqn:Hfind;
    [|by destruct (find_joins_None _ _ _ _ a Hfind)].
  apply find_joins_Some in Hfind.
  destruct (remove_arc_registered e.1 s Hs) as (s' & Hr & ? & ? & _).
  { apply (arcs_indexed s (proj1 Hs)). eauto. }
  unfold remove_arc in Hr. rewrite Hfind in Hr. by exists e.1, s'.
Qed.

Lemma remove_arc_between_consistent_graph_witness :
  ∃ a s', endpoint_dic_ chain_before_removal !! a = Some (2, 3)%N ∧
          remove_arc_between default_order 2%N 3%N chain_before_removal =
            (true, s') ∧ consistent s' ∧
          ∀ x, x ∈ all_arc s' ↔ x ∈ all_arc chain_before_removal ∧ x ≠ a.
Proof.
  apply (remove_arc_between_consistent_graph default_order 2%N 3%N
           chain_before_removal).
  - apply (run_consistent (take 5 chain_ops) empty_graph _ consistent_empty);
      vm_compute; reflexivity.
  - exists 12%N. vm_compute. reflexivity.
Defined.

(** ** [add_arc] undone by [remove_arc] *)

Lemma app_snoc_cons_fresh {A} (l l1 l2 : list A) (x : A) :
  l ++ [x] = l1 ++ x :: l2 → x ∉ l → l2 = [] ∧ l1 = l.
Proof.
  intros Heq Hn. destruct l2 as [|y l2 _] using rev_ind.
  - split; [done|]. by apply app_inj_tail in Heq as [? _].
  - exfalso. apply Hn.
    change (l1 ++ x :: l2 ++ [y]) with (l1 ++ (x :: l2) ++ [y]) in Heq.
    rewrite (assoc_L (++)) in Heq. apply app_inj_tail in Heq as [-> _].
    set_solver.
Qed.

(** X16.  For an arc that is not indexed and has no entry [(to, arc)] in
    the bucket of [from], [remove_arc(arc)] right after [add_arc(arc,
    from, to)] returns [true] and puts the arc list, the endpoint
    dictionary and the node list back; the buckets are back as well,
    except that [from] now has a bucket if it had none.  In particular
    the graph is exactly as before when [from] had a bucket. *)
Theorem add_arc_remove_arc arc from to s :
  endpoint_dic_ s !! arc = None → (to, arc) ∉ bucket_of from s →
  ∃ s1, add_arc no_fault arc from to s = Return arc s1 ∧
        remove_arc arc s1 =
          (true,
           mk_adjacency_list (stored_node_ s) (stored_arc_ s)
             (endpoint_dic_ s)
             (<[from:=bucket_of from s]> (adjacency_ s))) ∧
        (is_Some (adjacency_ s !! from) → remove_arc arc s1 = (true, s)).
Proof.
  intros Harc Hfresh. rewrite add_arc_no_fault. eexists. split; [done|].
  match goal with |- ?P ∧ _ => assert P as Hremove end.
  { unfold remove_arc; simpl. rewrite lookup_insert_eq.
    match goal with |- remove_arc_private _ _ _ ?s1 = _ =>
      destruct (remove_arc_private_true arc from to s1)
        as (l1 & l2 & b1 & b2 & Hl & Hn2 & Hb & Hn1 & _ & ->) end.
    { split; simpl; [set_solver|]. eexists.
      rewrite lookup_insert_eq. split; [done|]. set_solver. }
    simpl in *. rewrite lookup_insert_eq in Hb. injection Hb as Hb.
    symmetry in Hl. apply app_cons_snoc_last in Hl as [-> ->]; [|done].
    apply app_snoc_cons_fresh in Hb as [-> ->]; [|done].
    by rewrite !app_nil_r, delete_insert_id, insert_insert_eq. }
  split; [done|]. intros [b Hb]. rewrite Hremove. f_equal.
  unfold bucket_of. rewrite Hb; simpl. rewrite insert_id by done.
  by destruct s.
Qed.

Lemma add_arc_remove_arc_witness :
  ∃ s1, add_arc no_fault 13%N 1%N 3%N chain_before_removal =
          Return 13%N s1 ∧
        remove_arc 13%N s1 = (true, chain_before_removal).
Proof.
  destruct (add_arc_remove_arc 13%N 1%N 3%N chain_before_removal)
    as (s1 & Hadd & _ & Hback).
  - vm_compute. reflexivity.
  - vm_compute. intros H.
    repeat (apply elem_of_cons in H as [H|H]; [done|]).
    by apply elem_of_nil in H.
  - exists s1. split; [done|]. apply Hback. vm_compute. eexists. reflexivity.
Defined.

(** ** [remove_node] *)

Lemma remove_arc_private_buckets arc from to s n :
  is_Some (adjacency_ (remove_arc_private arc from to s).2 !! n) ↔
  is_Some (adjacency_ s !! n).
Proof.
  destruct (remove_arc_private_cases arc from to s)
    as [[_ ->]|(l1 & l2 & b1 & b2 & _ & _ & Hb & _ & ->)]; [done|].
  simpl. rewrite lookup_insert_is_Some.
  split; [intros [<-|[_ ?]]; eauto|].
  intros ?. destruct (decide (from = n)); auto.
Qed.

Lemma cascade_buckets node arcs s n :
  is_Some (adjacency_ (cascade node arcs s).2 !! n) ↔
  is_Some (adjacency_ s !! n).
Proof.
  revert s. induction arcs as [|a arcs IH]; intros s; simpl; [done|].
  destruct (endpoint_dic_ s !! a) as [[f t]|] eqn:Hft; [|done].
  case_bool_decide; [|apply IH].
  unfold remove_arc. rewrite Hft.
  pose proof (remove_arc_private_buckets a f t s n) as Hb.
  destruct (remove_arc_private a f t s) as [[] s1]; simpl in *; [|done].
  by rewrite IH.
Qed.

(** What a cascade that meets no error leaves: every listed arc is
    indexed away from [node]; the dictionary and the arc list have only
    lost entries.  [oks] are the arcs already visited and kept. *)
Lemma cascade_success node arcs s s' oks :
  cascade node arcs s = (false, s') →
  stored_arc_ s ⊆+ oks ++ arcs →
  (∀ a, a ∈ oks →
        ∃ f t, endpoint_dic_ s !! a = Some (f, t) ∧ f ≠ node ∧ t ≠ node) →
  (∀ a, a ∈ stored_arc_ s' →
        ∃ f t, endpoint_dic_ s' !! a = Some (f, t) ∧ f ≠ node ∧ t ≠ node) ∧
  (∀ a p, endpoint_dic_ s' !! a = Some p → endpoint_dic_ s !! a = Some p) ∧
  stored_arc_ s' `sublist_of` stored_arc_ s.
Proof.
  revert s oks. induction arcs as [|a0 arcs IH]; intros s oks; simpl.
  { intros [= <-] Hsub Hoks. rewrite app_nil_r in Hsub.
    split_and!; [|done|done]. intros a Ha. apply Hoks.
    by eapply elem_of_submseteq. }
  destruct (endpoint_dic_ s !! a0) as [[f t]|] eqn:Hft; [|done].
  case_bool_decide as Hinc.
  - unfold remove_arc. rewrite Hft.
    destruct (remove_arc_private_cases a0 f t s)
      as [[_ ->]|(l1 & l2 & b1 & b2 & Hl & _ & _ & _ & ->)]; [done|].
    intros Hc Hsub Hoks.
    destruct (IH _ oks Hc) as (Hlisted & Hdict & Hsl); simpl.
    + rewrite Hl in Hsub. apply (submseteq_app_inv_l _ _ [a0]). simpl.
      by rewrite (Permutation_middle l1), (Permutation_middle oks).
    + intros a Ha. destruct (Hoks a Ha) as (f' & t' & Hft' & Hf' & Ht').
      exists f', t'. split; [|done]. rewrite lookup_delete_ne; [done|].
      intros <-. rewrite Hft in Hft'. injection Hft' as <- <-. tauto.
    + split_and!; [done| |].
      * intros a p Hp. apply Hdict in Hp. simpl in Hp.
        by apply lookup_delete_Some in Hp as [_ ?].
      * simpl in Hsl. rewrite Hl. etrans; [done|].
        apply sublist_app; [done|]. by apply sublist_cons.
  - intros Hc Hsub Hoks. apply (IH s (oks ++ [a0]) Hc).
    + by rewrite <-(assoc_L (++)).
    + intros a [Ha| ->%list_elem_of_singleton]%elem_of_app; [eauto|].
      exists f, t. split; [done|]. split; intros ->; apply Hinc; auto.
Qed.

(** X17.  [remove_node] never lets an exception out.  It returns [false]
    for a node that is not in the node list; whenever it returns [false]
    the graph is exactly as before the call; and the program is ended
    exactly when the node is listed and the backup copies cannot be
    allocated. *)
Theorem remove_node_no_throw φ node s :
  (∀ e s', remove_node φ node s ≠ Raise e s') ∧
  (node ∉ all_node s → remove_node φ node s = Return false s) ∧
  (∀ s', remove_node φ node s = Return false s' → s' = s) ∧
  (remove_node φ node s = Terminate ↔
   node ∈ all_node s ∧ φ backup_copy = true).
Proof.
  unfold all_node.
  destruct (remove_node_cases φ node s)
    as [[Hn ->]|[(Hin & Hφ & ->)|[(Hin & Hφ & _ & ->)|
        (l1 & l2 & s1 & Hl & _ & Hφ & _ & ->)]]].
  - split_and!; try done; [by intros s' [= <-]|]. split; [done|tauto].
  - split_and!; try done.
  - split_and!; try done; [by intros s' [= <-]|].
    split; [done|]. intros [_ ?]. congruence.
  - split_and!; try done.
    + intros Hn. destruct Hn. rewrite Hl. set_solver.
    + split; [done|]. intros [_ ?]. congruence.
Qed.

Lemma remove_node_no_throw_witness :
  remove_node no_fault 9%N chain_before_removal =
    Return false chain_before_removal.
Proof.
  apply (proj1 (proj2 (remove_node_no_throw no_fault 9%N
                         chain_before_removal))).
  vm_compute. intros H.
  repeat (apply elem_of_cons in H as [H|H]; [done|]).
  by apply elem_of_nil in H.
Defined.

(** X18.  Whatever the graph, when [remove_node(node)] returns [true]:
    the node has no bucket any more, so [child_nodes(node)] throws; every
    other node keeps or lacks its bucket as before; every arc left in
    [all_arc()] is indexed, with the endpoints it had, and neither of
    them is [node]; the node list and the arc list have lost entries
    without being reordered; and when the node was listed once, it is
    not listed any more. *)
Theorem remove_node_success φ node s s' :
  remove_node φ node s = Return true s' →
  adjacency_ s' !! node = None ∧
  child_nodes node s' = Raise out_of_range s' ∧
  (∀ n, n ≠ node →
        (is_Some (adjacency_ s' !! n) ↔ is_Some (adjacency_ s !! n))) ∧
  (∀ a, a ∈ all_arc s' →
        ∃ f t, endpoint_dic_ s' !! a = Some (f, t) ∧
               endpoint_dic_ s !! a = Some (f, t) ∧
               f ≠ node ∧ t ≠ node) ∧
  (∀ a, incident node a s → a ∉ all_arc s') ∧
  all_arc s' `sublist_of` all_arc s ∧
  all_node s' `sublist_of` all_node s ∧
  (NoDup (all_node s) → node ∉ all_node s').
Proof.
  intros Hr.
  destruct (remove_node_cases φ node s)
    as [[_ Hf]|[(_ & _ & Hf)|[(_ & _ & _ & Hf)|
        (l1 & l2 & s1 & Hl & Hn & _ & Hc & Ht)]]];
    rewrite Hr in *; try done.
  injection Ht as ->.
  destruct (cascade_success node (stored_arc_ s) s s1 [] Hc)
    as (Hlisted & Hdict & Hsl); [done|by intros a ?%elem_of_nil|].
  assert (∀ a, a ∈ stored_arc_ s1 →
            ∃ f t, endpoint_dic_ s1 !! a = Some (f, t) ∧
                   endpoint_dic_ s !! a = Some (f, t) ∧
                   f ≠ node ∧ t ≠ node) as Hkept.
  { intros a Ha. destruct (Hlisted a Ha) as (f & t & Hft & ? & ?).
    exists f, t. split_and!; auto. }
  unfold child_nodes, all_arc, all_node; simpl. rewrite lookup_delete_eq.
  split_and!; try done.
  - intros n Hne. rewrite lookup_delete_ne by done.
    pose proof (cascade_buckets node (stored_arc_ s) s n) as Hb.
    by rewrite Hc in Hb.
  - intros a (f & t & Hft & Hor) Ha.
    destruct (Hkept a Ha) as (f' & t' & _ & Hft' & ? & ?).
    rewrite Hft in Hft'. injection Hft' as <- <-. tauto.
  - rewrite Hl. apply sublist_app; [done|]. by apply sublist_cons.
  - rewrite Hl. intros Hnd.
    apply NoDup_app in Hnd as (_ & Hdisj & [Hn2 _]%NoDup_cons).
    rewrite elem_of_app. intros [Hin|Hin]; [|done].
    apply (Hdisj _ Hin). set_solver.
Qed.

Lemma remove_node_success_witness :
  ∃ s', remove_node no_fault 2%N chain_before_removal = Return true s' ∧
        child_nodes 2%N s' = Raise out_of_range s' ∧
        ∀ a, incident 2%N a chain_before_removal → a ∉ all_arc s'.
Proof.
  eexists. split; [vm_compute; reflexivity|].
  pose proof (remove_node_success no_fault 2%N chain_before_removal _
                eq_refl) as (_ & Hc & _ & _ & Hi & _).
  exact (conj Hc Hi).
Defined.

(** ** Sequences of successful calls, again *)

(** X19.  Fresh arcs are enough for the arc list and the endpoint index
    to agree: after a sequence of successful calls from the empty graph
    in which every [add_arc] is given an arc that is not in the arc list,
    [all_arc()] has no duplicates and holds exactly the indexed arcs,
    however nodes were added and removed. *)
Theorem fresh_arcs_stay_registered ops s :
  run ops empty_graph = Some s →
  each_step takes_fresh_arc ops empty_graph = true →
  NoDup (all_arc s) ∧
  ∀ a, a ∈ all_arc s ↔ is_Some (endpoint_dic_ s !! a).
Proof.
  intros Hrun Hfresh.
  destruct (run_arcs_registered _ _ _ arcs_registered_empty Hfresh Hrun).
  done.
Qed.

Lemma fresh_arcs_stay_registered_witness :
  NoDup (all_arc (mk_adjacency_list [1; 1]%N [7]%N {[ 7%N := (1, 2)%N ]}
                    {[ 1%N := [] ]})) ∧
  ∀ a, a ∈ all_arc (mk_adjacency_list [1; 1]%N [7]%N {[ 7%N := (1, 2)%N ]}
                      {[ 1%N := [] ]}) ↔
       is_Some (endpoint_dic_
                  (mk_adjacency_list [1; 1]%N [7]%N {[ 7%N := (1, 2)%N ]}
                     {[ 1%N := [] ]}) !! a).
Proof.
  apply (fresh_arcs_stay_registered [Add_node 1; Add_arc 7 1 2; Add_node 1]%N);
    vm_compute; reflexivity.
Defined.

Lemma exec_op_nodes_have_buckets o s s' :
  nodes_have_buckets s → takes_new_node o s = true →
  exec_op o s = Some s' → nodes_have_buckets s'.
Proof.
  intros [Hnd Hb] Hnew. destruct o as [n|a f t|n|a|io f t]; simpl in *.
  - rewrite add_node_no_fault. intros [= <-].
    apply bool_decide_eq_true in Hnew. split; simpl.
    + apply NoDup_app. split_and!; [done| |apply NoDup_singleton].
      intros x Hx ->%list_elem_of_singleton. done.
    + intros m Hm. rewrite lookup_insert_is_Some.
      destruct (decide (n = m)); [by left|right].
      split; [done|]. apply Hb. set_solver.
  - rewrite add_arc_no_fault. intros [= <-]. split; simpl; [done|].
    intros m Hm. rewrite lookup_insert_is_Some.
    destruct (decide (f = m)); [by left|right]. auto.
  - destruct (remove_node_cases no_fault n s)
      as [[_ ->]|[(_ & [=] & _)|[(_ & _ & _ & ->)|
          (l1 & l2 & s1 & Hl & _ & _ & Hc & ->)]]]; try done.
    intros [= <-]. rewrite Hl in Hnd.
    apply NoDup_app in Hnd as (Hnd1 & Hdisj & [Hn2 Hnd2]%NoDup_cons).
    split; simpl.
    + apply NoDup_app. split_and!; [done| |done].
      intros x Hx Hx2. apply (Hdisj x Hx). set_solver.
    + intros m Hm.
      assert (n ≠ m) as Hne.
      { intros <-. apply elem_of_app in Hm as [Hm|Hm]; [|done].
        apply (Hdisj n Hm). set_solver. }
      rewrite lookup_delete_ne by done.
      pose proof (cascade_buckets n (stored_arc_ s) s m) as Hcb.
      rewrite Hc in Hcb. simpl in Hcb. apply Hcb. apply Hb. rewrite Hl. set_solver.
  - unfold remove_arc. destruct (endpoint_dic_ s !! a) as [[f t]|]; [|done].
    pose proof (remove_arc_private_stored_node a f t s) as Hsn.
    pose proof (remove_arc_private_buckets a f t s) as Hcb.
    destruct (remove_arc_private a f t s) as [[] s1]; [|done].
    intros [= <-]. simpl in *. split; rewrite Hsn; [done|].
    intros m Hm. apply Hcb. by apply Hb.
  - unfold remove_arc_between. destruct (List.find _ _) as [e|]; [|done].
    pose proof (remove_arc_private_stored_node e.1 f t s) as Hsn.
    pose proof (remove_arc_private_buckets e.1 f t s) as Hcb.
    destruct (remove_arc_private e.1 f t s) as [[] s1]; [|done].
    intros [= <-]. simpl in *. split; rewrite Hsn; [done|].
    intros m Hm. apply Hcb. by apply Hb.
Qed.

(** X20.  After a sequence of successful calls from the empty graph in
    which every [add_node] is given a node that is not in the node list,
    [all_node()] has no duplicates and [child_nodes] returns, without
    throwing, for every node of [all_node()]. *)
Theorem listed_nodes_have_children ops s :
  run ops empty_graph = Some s →
  each_step takes_new_node ops empty_graph = true →
  NoDup (all_node s) ∧
  ∀ n, n ∈ all_node s → ∃ children, child_nodes n s = Return children s.
Proof.
  intros Hrun Hnew.
  assert (nodes_have_buckets empty_graph) as H0.
  { split; simpl; [constructor|]. by intros n ?%elem_of_nil. }
  destruct (run_invariant _ _ exec_op_nodes_have_buckets _ _ _ H0 Hnew Hrun)
    as [Hnd Hb].
  split; [done|]. intros n [b Hn]%Hb. unfold child_nodes. rewrite Hn. eauto.
Qed.

Lemma listed_nodes_have_children_witness :
  NoDup (all_node chain_graph) ∧
  ∀ n, n ∈ all_node chain_graph →
       ∃ children, child_nodes n chain_graph = Return children chain_graph.
Proof.
  apply (listed_nodes_have_children chain_ops); vm_compute; reflexivity.
Defined.

(** Without that discipline a listed node can lack its bucket: a node
    added twice and removed once is still listed, and [child_nodes]
    throws for it. *)
Example listed_node_without_bucket :
  run [Add_node 1; Add_node 1; Remove_node 1]%N empty_graph =
    Some (mk_adjacency_list [1]%N [] ∅ ∅) ∧
  child_nodes 1%N (mk_adjacency_list [1]%N [] ∅ ∅) =
    Raise out_of_range (mk_adjacency_list [1]%N [] ∅ ∅).
Proof. split; vm_compute; reflexivity. Qed.

(** X21.  On a consistent graph [remove_node] of a listed node returns
    [true], leaves a consistent graph, and takes out of [all_arc()] the
    arcs whose indexed source or target is the node and no other arc. *)
Theorem remove_node_consistent_graph node s :
  consistent s → node ∈ all_node s →
  ∃ s', remove_node no_fault node s = Return true s' ∧ consistent s' ∧
        ∀ a, a ∈ all_arc s' ↔ a ∈ all_arc s ∧ ¬ incident node a s.
Proof.
  intros Hs Hn.
  destruct (remove_node_registered node s Hs Hn)
    as (l1 & l2 & s' & Hr & _ & _ & _ & Hs' & Hmem).
  by exists s'.
Qed.

Lemma remove_node_consistent_graph_witness :
  ∃ s', remove_node no_fault 3%N chain_before_removal = Return true s' ∧
        consistent s' ∧
        ∀ a, a ∈ all_arc s' ↔
             a ∈ all_arc chain_before_removal ∧
             ¬ incident 3%N a chain_before_removal.
Proof.
  apply (remove_node_consistent_graph 3%N chain_before_removal).
  - apply (run_consistent (take 5 chain_ops) empty_graph _ consistent_empty);
      vm_compute; reflexivity.
  - vm_compute. do 2 (apply elem_of_cons; right). apply elem_of_cons. by left.
Defined.
